(** * APE / NMT data pipeline: a shallow embedding of
      [src/eval/tasks/nmt/utils.py] and of the training loop of [src/nmt.py].

    Python values are modelled as follows.
    - [int] is [Z]; lengths are [nat] and enter arithmetic through [Z.of_nat].
    - [str] is [string]; a character is a code point below 256.
    - a [list] that is only read is a Rocq [list]; a list that is mutated
      while other references to it exist lives in an explicit store and is
      named by its index there.
    - a [dict] is an insertion-ordered association list with an optional
      default ([Py.dict]).
    - an exception is [None] in the option monad; in the training loop,
      where it matters which exception is raised and what was done before
      it, statements are state transformers that return or raise
      ([Train.M]).
    - [random.sample] is a parameter: any function returning a permutation
      of its argument while threading a generator state. *)

From Stdlib Require Import ZArith Lia Floats Ascii String DecimalString.
From stdpp Require Import base tactics option list numbers strings sets sorting.

Set Default Proof Using "Type".
Local Open Scope Z_scope.

(** ** Python built-ins *)

Module Py.

Section Sorting.
Context {A : Type} (key : A → Z).

(** [insert_by x l] puts [x] in front of the first element whose key is
    not smaller.  Folding it from the right gives a stable sort, which
    is what [sorted(..., key=key)] is. *)
Fixpoint insert_by (x : A) (l : list A) : list A :=
  match l with
  | [] => [x]
  | y :: l' => if key x <=? key y then x :: y :: l' else y :: insert_by x l'
  end.

Definition sorted (l : list A) : list A := foldr insert_by [] l.

(** [itertools.groupby]: maximal runs of consecutive elements with the
    same key. *)
Fixpoint groupby (l : list A) : list (list A) :=
  match l with
  | [] => []
  | x :: l' =>
      match groupby l' with
      | (y :: g) :: gs =>
          if key x =? key y then (x :: y :: g) :: gs else [x] :: (y :: g) :: gs
      | gs => [x] :: gs
      end
  end.
End Sorting.

(** [sorted(..., key=key, reverse=True)] keeps equal keys in their original
    order, so it is the stable ascending sort for the negated key. *)
Definition sorted_reverse {A} (key : A → Z) (l : list A) : list A :=
  sorted (λ x, - key x) l.

(** [range(n)] *)
Definition range (n : nat) : list nat := seq 0 n.

(** The extended slice [l[start::step]] for [step > 0] and a start that
    is already normalised into [0, len]. *)
Fixpoint stride {A} (skip step : nat) (l : list A) : list A :=
  match l with
  | [] => []
  | x :: l' =>
      match skip with
      | O => x :: stride step step l'
      | S k => stride k step l'
      end
  end.

(** [l[start::step]] in full: a zero step raises [ValueError]; a negative
    start counts from the end and is clamped; a negative step walks
    towards the front from the (clamped) start. *)
Definition slice_from_step {A} (l : list A) (start step : Z) : option (list A) :=
  let n := Z.of_nat (length l) in
  if step =? 0 then None
  else if 0 <? step then
    let s := if start <? 0 then Z.max (start + n) 0 else Z.min start n in
    Some (stride (Z.to_nat s) (Z.to_nat (step - 1)) l)
  else
    let s := if start <? 0 then start + n else Z.min start (n - 1) in
    if s <? 0 then Some []
    else Some (stride 0 (Z.to_nat (- step - 1)) (reverse (take (Z.to_nat (s + 1)) l))).

(** *** Strings *)

Definition newline : ascii := "010"%char.
Definition tab : ascii := "009"%char.
Definition space : ascii := " "%char.

(** [str.isspace] on the code points below 256. *)
Definition is_whitespace (c : ascii) : bool :=
  let n := nat_of_ascii c in
  ((9 <=? n) && (n <=? 13) || (28 <=? n) && (n <=? 32) || (n =? 133) || (n =? 160))%nat.

(** [s.split()]: the maximal runs of characters that are not whitespace. *)
Fixpoint split (s : string) : list string :=
  match s with
  | EmptyString => []
  | String c s' =>
      if is_whitespace c then split s'
      else
        match s' with
        | EmptyString => [String c EmptyString]
        | String c' _ =>
            if is_whitespace c' then String c EmptyString :: split s'
            else
              match split s' with
              | w :: ws => String c w :: ws
              | [] => [String c EmptyString]
              end
        end
  end.

(** [s.split(sep)] for a separator of one character: never empty. *)
Fixpoint split_on (sep : ascii) (s : string) : list string :=
  match s with
  | EmptyString => [EmptyString]
  | String c s' =>
      if decide (c = sep) then EmptyString :: split_on sep s'
      else
        match split_on sep s' with
        | w :: ws => String c w :: ws
        | [] => [String c EmptyString]
        end
  end.

(** [s.rstrip(ch)] for a single character. *)
Fixpoint rstrip (ch : ascii) (s : string) : string :=
  match s with
  | EmptyString => EmptyString
  | String c s' =>
      match rstrip ch s' with
      | EmptyString => if decide (c = ch) then EmptyString else String c EmptyString
      | r => String c r
      end
  end.

(** [sep.join(l)] *)
Fixpoint join (sep : string) (l : list string) : string :=
  match l with
  | [] => EmptyString
  | [w] => w
  | w :: l' => w +:+ sep +:+ join sep l'
  end.

(** Iterating over a text file: the lines, each with its terminator; the
    argument is the decoded text of the file after newline translation. *)
Fixpoint readlines (text : string) : list string :=
  match text with
  | EmptyString => []
  | String c text' =>
      if decide (c = newline) then String c EmptyString :: readlines text'
      else
        match readlines text' with
        | l :: ls => String c l :: ls
        | [] => [String c EmptyString]
        end
  end.

(** [str(n)], also what an f-string makes of an [int]. *)
Definition str_of_int (n : Z) : string := DecimalString.NilZero.string_of_int (Z.to_int n).

(** [itertools.takewhile] *)
Fixpoint takewhile {A} (p : A → bool) (l : list A) : list A :=
  match l with
  | [] => []
  | x :: l' => if p x then x :: takewhile p l' else []
  end.

(** *** Dictionaries *)

(** A [dict] keeps its keys in insertion order; [default_factory] is
    [Some v] for a [defaultdict(lambda: v)]. *)
Record dict (K V : Type) := Dict {
  items : list (K * V);
  default_factory : option V
}.
Arguments Dict {K V} _ _.
Arguments items {K V} _.
Arguments default_factory {K V} _.

Section Dict.
Context {K V : Type} `{EqDecision K}.

Fixpoint assoc (k : K) (l : list (K * V)) : option V :=
  match l with
  | [] => None
  | (k', v) :: l' => if decide (k = k') then Some v else assoc k l'
  end.

(** Assigning to a present key keeps its place; a new key goes last. *)
Fixpoint assoc_set (k : K) (v : V) (l : list (K * V)) : list (K * V) :=
  match l with
  | [] => [(k, v)]
  | (k', v') :: l' =>
      if decide (k = k') then (k, v) :: l' else (k', v') :: assoc_set k v l'
  end.

(** [d[k]]: [None] is [KeyError]; a [defaultdict] stores the default it
    hands out. *)
Definition getitem (d : dict K V) (k : K) : option (V * dict K V) :=
  match assoc k (items d) with
  | Some v => Some (v, d)
  | None =>
      match default_factory d with
      | Some v => Some (v, Dict (items d ++ [(k, v)]) (default_factory d))
      | None => None
      end
  end.

(** A dictionary comprehension or [dict(pairs)]: later pairs win. *)
Definition dict_of (pairs : list (K * V)) : list (K * V) :=
  foldl (λ acc kv, assoc_set kv.1 kv.2 acc) [] pairs.
End Dict.

(** [collections.Counter(iterable)] *)
Definition Counter {K} `{EqDecision K} (elems : list K) : list (K * Z) :=
  foldl (λ acc k, assoc_set k (default 0 (assoc k acc) + 1) acc) [] elems.

End Py.

(** ** Vocabulary and vectorization *)

Definition SOS : string := "<SOS>".
Definition EOS : string := "<EOS>".
Definition UNK : string := "<UNK>".

(** The generator expression of [build_vocab]: every word of every line
    of every file, in order; a file is given by its text. *)
Definition corpus_words (files : list string) : list string :=
  file ← files; line ← Py.readlines file; Py.split line.

(** [build_vocab(files)] *)
Definition build_vocab (files : list string) : list (string * Z) :=
  Py.Counter (corpus_words files).

(** One line of the vocabulary file, [f'{v}\t{c}']. *)
Definition vocab_line (entry : string * Z) : string :=
  entry.1 +:+ String Py.tab (Py.str_of_int entry.2).

(** [write_vocab(vocab, path)]: the text written to [path]. *)
Definition write_vocab (vocab : list (string * Z)) : string :=
  (SOS +:+ String Py.newline (EOS +:+ String Py.newline (UNK +:+ String Py.newline EmptyString)))
  +:+ Py.join (String Py.newline EmptyString) (vocab_line <$> Py.sorted_reverse snd vocab).

(** [k.rstrip('\n').split('\t')[0]]; [None] would be [IndexError]. *)
Definition key_of_line (k : string) : option string :=
  head (Py.split_on Py.tab (Py.rstrip Py.newline k)).

(** [enumerate(l)] *)
Definition enumerate {A} (l : list A) : list (nat * A) := imap pair l.

(** [read_vocab(path)], given the text found at [path]. *)
Definition read_vocab (text : string) : option (Py.dict string Z) :=
  pairs ← mapM (λ ik, key ← key_of_line ik.2; Some (key, Z.of_nat ik.1))
               (enumerate (Py.readlines text));
  Some (Py.Dict (Py.dict_of pairs) (Some 2)).

(** [[d[k] for k in keys]], with the dictionary threaded through. *)
Fixpoint getitems {K V} `{EqDecision K} (d : Py.dict K V) (keys : list K)
    : option (list V * Py.dict K V) :=
  match keys with
  | [] => Some ([], d)
  | k :: keys' =>
      '(v, d1) ← Py.getitem d k;
      '(vs, d2) ← getitems d1 keys';
      Some (v :: vs, d2)
  end.

(** [vectorize(line, vocab, wrap)]: the ids and the vocabulary object as
    the call leaves it. *)
Definition vectorize (line : string) (vocab : Py.dict string Z) (wrap : bool)
    : option (list Z * Py.dict string Z) :=
  '(tokens, vocab1) ← getitems vocab (Py.split line);
  if wrap then
    '(sos, vocab2) ← Py.getitem vocab1 SOS;
    '(eos, vocab3) ← Py.getitem vocab2 EOS;
    Some (sos :: tokens ++ [eos], vocab3)
  else Some (tokens, vocab1).

(** [devectorize(tokens, ivocab, unwrap)] *)
Definition devectorize (tokens : list Z) (ivocab : Py.dict Z string) (unwrap : bool)
    : option (string * Py.dict Z string) :=
  '(subwords, ivocab1) ← getitems ivocab tokens;
  let subwords :=
    if unwrap then Py.takewhile (λ sw, bool_decide (sw ≠ EOS)) (drop 1 subwords)
    else subwords in
  Some (Py.join (String Py.space EmptyString) subwords, ivocab1).

(** [vectorize_file(file, vocab, wrap)], given the text of [file]. *)
Fixpoint vectorize_lines (lines : list string) (vocab : Py.dict string Z) (wrap : bool)
    : option (list (list Z) * Py.dict string Z) :=
  match lines with
  | [] => Some ([], vocab)
  | line :: lines' =>
      '(v, vocab1) ← vectorize line vocab wrap;
      '(vs, vocab2) ← vectorize_lines lines' vocab1 wrap;
      Some (v :: vs, vocab2)
  end.

Definition vectorize_file (text : string) (vocab : Py.dict string Z) (wrap : bool)
    : option (list (list Z) * Py.dict string Z) :=
  vectorize_lines (Py.readlines text) vocab wrap.

(** Modelled from the spec: the reverse mapping (id to token), which the
    vocabulary manager derives once from the loaded vocabulary and only
    reads afterwards; the code that derives it is not among the sources.
    It is a plain dictionary from each id to its token. *)
Definition reverse_mapping (vocab : Py.dict string Z) : Py.dict Z string :=
  Py.Dict (Py.dict_of ((λ kv, (kv.2, kv.1)) <$> Py.items vocab)) None.

(** The id that a vocabulary gives to a word: its entry, else 2. *)
Definition token_id (vocab : Py.dict string Z) (word : string) : Z :=
  default 2 (Py.assoc word (Py.items vocab)).

(** The ids that [vectorize] is expected to return. *)
Definition token_ids (vocab : Py.dict string Z) (line : string) (wrap : bool) : list Z :=
  if wrap
  then token_id vocab SOS :: (token_id vocab <$> Py.split line) ++ [token_id vocab EOS]
  else token_id vocab <$> Py.split line.

(** The characters of a string. *)
Definition chars (s : string) : list ascii := list_ascii_of_string s.

(** How often [w] occurs in [words]. *)
Definition occurrences (w : string) (words : list string) : Z :=
  Z.of_nat (length (filter (λ w', w' = w) words)).

(** The first fields of the lines of a vocabulary text. *)
Definition vocab_keys (text : string) : option (list string) :=
  mapM key_of_line (Py.readlines text).

(** A vocabulary text as the data model wants it: the three markers
    first, and no token twice. *)
Definition well_formed (text : string) : Prop :=
  ∃ rest, vocab_keys text = Some (SOS :: EOS :: UNK :: rest)
          ∧ NoDup (SOS :: EOS :: UNK :: rest).

(** The vocabulary that gives each key its position. *)
Definition numbered (keys : list string) : Py.dict string Z :=
  Py.Dict (imap (λ i key, (key, Z.of_nat i)) keys) (Some 2).

(** A word as the round trip is expected to return it. *)
Definition known_or_unk (vocab : Py.dict string Z) (word : string) : string :=
  if decide (word ∈ (Py.items vocab).*1) then word else UNK.

(** ** Samples *)

(** [PairSample = tuple[list[int], list[int]]] *)
Abbreviation PairSample := (list Z * list Z)%type.

(** [sum(map(len, pair))] *)
Definition pair_len (pair : PairSample) : Z :=
  Z.of_nat (length pair.1) + Z.of_nat (length pair.2).

(** ** Randomness *)

(** [shuffle(vs)] is [sample(list(vs), len(vs))]: a fresh list holding the
    elements of [vs] in some order.  The generator state is threaded. *)
Class Sampler (rng : Type) := {
  shuffle : ∀ {A}, list A → rng → list A * rng;
  shuffle_perm : ∀ A (l : list A) g, (shuffle l g).1 ≡ₚ l
}.

(** A sampler that happens to return its argument in the original order. *)
Definition sample_in_order : Sampler unit.
Proof.
  refine {| shuffle := λ A l g, (l, g) |}.
  intros; reflexivity.
Defined.

(** A sampler that happens to return its argument back to front. *)
Definition sample_reversed : Sampler unit.
Proof.
  refine {| shuffle := λ A l g, (reverse l, g) |}.
  intros; simpl; apply reverse_Permutation.
Defined.

(** ** [Dataloader] *)

Module Dataloader.

Section Batches.
Context {rng : Type} {S : Sampler rng}.

(** [self.token_counts], computed by [__init__]. *)
Definition token_counts (dataset : list PairSample) : list Z :=
  pair_len <$> dataset.

(** The list comprehension over [groupby(...)]: each group is shuffled
    in turn and the results are concatenated. *)
Fixpoint shuffle_groups (groups : list (list nat)) (g : rng) : list nat * rng :=
  match groups with
  | [] => ([], g)
  | vs :: groups' =>
      let '(vs', g1) := shuffle vs g in
      let '(rest, g2) := shuffle_groups groups' g1 in
      (vs' ++ rest, g2)
  end.

(** The key [lambda idx: self.token_counts[idx]]; out of range the
    subscript raises, which cannot happen for indices of [range(len)]. *)
Definition count_key (counts : list Z) (idx : nat) : Z := default 0 (counts !! idx).

Definition indices (counts : list Z) (g : rng) : list nat * rng :=
  shuffle_groups
    (Py.groupby (count_key counts) (Py.sorted (count_key counts) (Py.range (length counts))))
    g.

(** The packing loop.  [batch] is a reference into [heap], the store of
    the list objects created by the loop: [batches.append(batch)] stores
    the reference, and [batch.append(...)] changes the object that every
    stored reference sees. *)
Record pack_state := PackState {
  heap : list (list PairSample);
  batches : list nat;
  num_tokens : Z;
  batch : nat
}.

Definition pack_init : pack_state :=
  {| heap := [ [] ]; batches := []; num_tokens := 0; batch := 0 |}.

Definition truthy (st : pack_state) (ref : nat) : bool :=
  match heap st !! ref with
  | Some (_ :: _) => true
  | _ => false
  end.

(** The [if ... else ...] of the loop body. *)
Definition place (dataset : list PairSample) (counts : list Z) (batch_size : Z)
    (st : pack_state) (idx : nat) : option pack_state :=
  sample_size ← counts !! idx;
  item ← dataset !! idx;
  Some (if num_tokens st + sample_size >? batch_size then
          {| heap := heap st ++ [[item]];
             batches := batches st ++ [batch st];
             num_tokens := sample_size;
             batch := length (heap st) |}
        else
          {| heap := alter (λ b, b ++ [item]) (batch st) (heap st);
             batches := batches st;
             num_tokens := num_tokens st + sample_size;
             batch := batch st |}).

(** The [if batch: batches.append(batch)] that follows it inside the loop
    body. *)
Definition emit (st : pack_state) : pack_state :=
  if truthy st (batch st)
  then {| heap := heap st; batches := batches st ++ [batch st];
          num_tokens := num_tokens st; batch := batch st |}
  else st.

Definition pack_step (dataset : list PairSample) (counts : list Z) (batch_size : Z)
    (st : pack_state) (idx : nat) : option pack_state :=
  emit <$> place dataset counts batch_size st idx.

Fixpoint pack_loop (dataset : list PairSample) (counts : list Z) (batch_size : Z)
    (st : pack_state) (idxs : list nat) : option pack_state :=
  match idxs with
  | [] => Some st
  | idx :: idxs' =>
      st' ← pack_step dataset counts batch_size st idx;
      pack_loop dataset counts batch_size st' idxs'
  end.

(** [get_batches]: the batches in the order in which the generator
    yields them, each read from the store when the loop has finished
    (nothing is yielded before). *)
Definition get_batches (dataset : list PairSample) (batch_size : Z) (g : rng)
    : option (list (list PairSample) * rng) :=
  let counts := token_counts dataset in
  let '(idxs, g1) := indices counts g in
  st ← pack_loop dataset counts batch_size pack_init idxs;
  let '(refs, g2) := shuffle (batches st) g1 in
  out ← mapM (λ ref, heap st !! ref) refs;
  Some (out, g2).
End Batches.

End Dataloader.

(** [sum(map(len, pair))] summed over a batch: its total token count. *)
Definition batch_tokens (b : list PairSample) : Z :=
  foldr (λ pair acc, pair_len pair + acc) 0 b.

(** ** [split_ds] *)

(** List objects live in a store and are passed by reference, so that the
    effect of a call on the caller's list can be stated. *)
Abbreviation store := (list (list PairSample)).

(** [sorted(...)] and slicing each build a fresh list object. *)
Definition alloc (h : store) (l : list PairSample) : store * nat := (h ++ [l], length h).

(** [split_ds(dataset, world_size, rank)].  The parameter [dataset] is a
    reference; the assignment rebinds the local name to the fresh sorted
    list.  The result is the store after the call together with the
    returned reference, or [None] when the slice raises. *)
Definition split_ds (h : store) (dataset : nat) (world_size rank : Z)
    : store * option nat :=
  match h !! dataset with
  | None => (h, None)
  | Some entries =>
      let '(h1, dataset1) := alloc h (Py.sorted pair_len entries) in
      match h1 !! dataset1 ≫= λ l, Py.slice_from_step l rank world_size with
      | None => (h1, None)
      | Some shard => let '(h2, res) := alloc h1 shard in (h2, Some res)
      end
  end.

(** The list that a call returns, for a caller that holds [entries]. *)
Definition shard_of (entries : list PairSample) (world_size rank : Z)
    : option (list PairSample) :=
  let '(h, res) := split_ds [entries] 0 world_size rank in
  res ≫= λ r, h !! r.

(** The entries of [l] whose position satisfies [P], in order; [pos] is
    the position of the head of [l]. *)
Fixpoint at_positions {A} (P : nat → bool) (pos : nat) (l : list A) : list A :=
  match l with
  | [] => []
  | x :: l' =>
      if P pos then x :: at_positions P (S pos) l' else at_positions P (S pos) l'
  end.

(** The partition as the specification words it: the entries whose
    position in the sorted order is congruent to [rank] modulo
    [world_size]. *)
Definition congruent_positions (entries : list PairSample) (world_size rank : Z)
    : list PairSample :=
  at_positions (λ i, Z.of_nat i mod world_size =? rank) 0 (Py.sorted pair_len entries).

(** ** [make_collator] *)

Module Collator.

(** A two-dimensional tensor is the list of its rows; the entries of a
    [torch.long] tensor are 64-bit integers, kept in [Z]. *)
Definition shape1 {A} (t : list (list A)) : nat :=
  match t with
  | row :: _ => length row
  | [] => 0%nat
  end.

(** [torch.nn.utils.rnn.pad_sequence(seqs, batch_first=True,
    padding_value=v)] of the library: every sequence is extended on the
    right with [v] to the length of the longest; an empty list of
    sequences is rejected ("received an empty list of sequences"). *)
Definition pad_sequence (seqs : list (list Z)) (padding_value : Z) : option (list (list Z)) :=
  match seqs with
  | [] => None
  | _ =>
      let width := max_list (length <$> seqs) in
      Some ((λ s : list Z, s ++ replicate (width - length s) padding_value) <$> seqs)
  end.

(** [t.ne(v)] *)
Definition ne (t : list (list Z)) (v : Z) : list (list bool) :=
  (λ row : list Z, (λ x, negb (x =? v)) <$> row) <$> t.

(** [torch.tril(torch.ones(n, n, dtype=torch.bool), diagonal=0)] *)
Definition tril_ones (n : nat) : list (list bool) :=
  (λ i : nat, (λ j : nat, bool_decide (j ≤ i)%nat) <$> seq 0 n) <$> seq 0 n.

(** [torch.tensor(ids, dtype=torch.long)]: an id that is not a 64-bit
    integer is rejected ("Overflow when unpacking long"). *)
Definition tensor_long (ids : list Z) : option (list Z) :=
  if forallb (λ x, (- 2 ^ 63 <=? x) && (x <? 2 ^ 63)) ids then Some ids else None.

(** [collate_fn(samples)]; moving a tensor to the device does not change
    its entries.  The last component is [causal_mask[None, :]], with its
    leading dimension of size one. *)
Definition collate_fn (samples : list PairSample)
    : option (list (list Z) * list (list Z) * list (list bool) * list (list (list bool))) :=
  sources ← mapM (λ pair : PairSample, tensor_long pair.1) samples;
  input_ids ← pad_sequence sources (-1);
  targets ← mapM (λ pair : PairSample, tensor_long pair.2) samples;
  output_ids ← pad_sequence targets (-1);
  let input_mask := ne input_ids (-1) in
  let causal_mask := tril_ones (shape1 output_ids) in
  Some (input_ids, output_ids, input_mask, [causal_mask]).

End Collator.

(** Entry [i][j] of a two-dimensional tensor. *)
Definition entry {A} (t : list (list A)) (i j : nat) : option A :=
  row ← t !! i; row !! j.

(** [s] extended on the right with [v] to [width]. *)
Definition padded (width : nat) (v : Z) (s : list Z) : list Z :=
  s ++ replicate (width - length s) v.

(** A valid id is a position in the vocabulary file. *)
Definition valid_id (x : Z) : Prop := 0 ≤ x.

(** An id that a [torch.long] tensor can hold. *)
Definition int64 (x : Z) : Prop := - 2 ^ 63 ≤ x < 2 ^ 63.

#[global] Instance int64_dec (x : Z) : Decision (int64 x).
Proof. unfold int64. apply _. Defined.

(** ** What the batcher is expected to deliver *)

(** A batch respects the budget, or is a single pair that alone exceeds it. *)
Definition within_budget (batch_size : Z) (b : list PairSample) : Prop :=
  batch_tokens b ≤ batch_size ∨ ∃ e, b = [e] ∧ batch_size < pair_len e.

Definition pack_ok (batch_size : Z) (b : list PairSample) : Prop :=
  b = [] ∨ within_budget batch_size b.

(** The loop invariant of the packing loop: the running sum is the token
    count of the current batch object, every object of the store is in
    order, and every stored reference is live. *)
Definition pack_inv (batch_size : Z) (st : Dataloader.pack_state) : Prop :=
  (∃ cur, Dataloader.heap st !! Dataloader.batch st = Some cur
          ∧ Dataloader.num_tokens st = batch_tokens cur)
  ∧ Forall (pack_ok batch_size) (Dataloader.heap st)
  ∧ Forall (λ r, r < length (Dataloader.heap st))%nat (Dataloader.batches st).

(** [e] sits in a batch object that [batches] refers to. *)
Definition covered (st : Dataloader.pack_state) (e : PairSample) : Prop :=
  ∃ r b, r ∈ Dataloader.batches st ∧ Dataloader.heap st !! r = Some b ∧ e ∈ b.

(** Proof step: a character that differs from each character of a given string. *)
Ltac absent_char :=
  let Hin := fresh in
  intros Hin; vm_compute in Hin;
  repeat (apply elem_of_cons in Hin as [Hin|Hin]; [discriminate Hin|]);
  by apply elem_of_nil in Hin.

(** ** Further functions and what is expected of them *)

(** [t.sum().item()] for a tensor of booleans: the number of true
    entries. *)
Definition count_true (t : list (list bool)) : Z :=
  foldr (λ row acc, Z.of_nat (length (filter (λ b, b = true) row)) + acc) 0 t.

(** The entries of a shard at the given indices, in that order. *)
Definition entries_at (ds : list PairSample) (idxs : list nat) : list PairSample :=
  omap (λ i, ds !! i) idxs.

(** The distinct elements of a list, in the order in which they first
    occur. *)
Fixpoint first_occurrences (l : list string) : list string :=
  match l with
  | [] => []
  | x :: l' => x :: filter (λ y, y ≠ x) (first_occurrences l')
  end.

(** The sum of the counts of a frequency table. *)
Definition total_count (table : list (string * Z)) : Z :=
  foldr (λ entry acc, entry.2 + acc) 0 table.

(** [''.join(l)]: strings put together with nothing between them. *)
Definition concat_str (l : list string) : string :=
  foldr String.append EmptyString l.

(** [merge_bpe(line)], that is [line.replace('@@ ', '')]: the occurrences
    of the three characters are found from the left, without overlap, and
    dropped. *)
Fixpoint merge_bpe (line : string) : string :=
  match line with
  | EmptyString => EmptyString
  | String c rest =>
      match rest with
      | String c2 (String c3 rest') =>
          if decide (c = "@"%char ∧ c2 = "@"%char ∧ c3 = " "%char)
          then merge_bpe rest'
          else String c (merge_bpe rest)
      | _ => String c (merge_bpe rest)
      end
  end.

(** The number of target ids of a batch. *)
Definition target_tokens (samples : list PairSample) : Z :=
  foldr (λ pair acc, Z.of_nat (length pair.2) + acc) 0 samples.


(** ** Files *)

(** What a file holds: text, or the pickled list of the id sequences of a
    corpus.  Reading a file as the other kind raises. *)
Inductive content :=
| Text (text : string)
| Pickled (obj : list (list Z)).

(** The files, by name. *)
Abbreviation files := (string → option content).

(** [open(name, 'r')], read as text; [None] when the file is missing. *)
Definition read_text (fs : files) (name : string) : option string :=
  match fs name with
  | Some (Text text) => Some text
  | _ => None
  end.

(** [pickle.load(f)] for [f = open(name, 'rb')] *)
Definition pickle_load (fs : files) (name : string) : option (list (list Z)) :=
  match fs name with
  | Some (Pickled obj) => Some obj
  | _ => None
  end.

(** [pickle.dump(obj, f)] for [f = open(name, 'wb')]: the file is created
    or replaced. *)
Definition pickle_dump (fs : files) (name : string) (obj : list (list Z)) : files :=
  λ name', if decide (name' = name) then Some (Pickled obj) else fs name'.

(** [f'{path}/{subset}.{lang}{ext}'] *)
Definition data_file (path subset lang ext : string) : string :=
  path +:+ "/" +:+ subset +:+ "." +:+ lang +:+ ext.

(** [load_datasets(path, subsets, flip)]: what the generator yields when
    it is run to its end, as [run]'s caller does. *)
Definition load_datasets (fs : files) (path : string) (subsets : list string) (flip : bool)
    : option (list (list PairSample)) :=
  mapM (λ subset,
          src ← pickle_load fs (data_file path subset "en" ".vec");
          tgt ← pickle_load fs (data_file path subset "de" ".vec");
          Some (if flip then zip tgt src else zip src tgt))
       subsets.

(** The body of the loops of [vectorize_files] for one language and one
    subset. *)
Definition vectorize_job (path : string) (st : files * Py.dict string Z)
    (job : string * string) : option (files * Py.dict string Z) :=
  text ← read_text st.1 (data_file path job.2 job.1 ".bpe");
  '(vectorized, vocab) ← vectorize_file text st.2 true;
  Some (pickle_dump st.1 (data_file path job.2 job.1 ".vec") vectorized, vocab).

Fixpoint vectorize_jobs (path : string) (st : files * Py.dict string Z)
    (jobs : list (string * string)) : option (files * Py.dict string Z) :=
  match jobs with
  | [] => Some st
  | job :: jobs' => st' ← vectorize_job path st job; vectorize_jobs path st' jobs'
  end.

(** [vectorize_files(path, vocab_path)]: the files after the call.  The
    loops run over two set literals, whose iteration orders are [langs]
    (of the set of en and de) and [subsets] (of the set of train, dev and
    test). *)
Definition vectorize_files (fs : files) (path vocab_path : string)
    (langs subsets : list string) : option files :=
  text ← read_text fs vocab_path;
  vocab ← read_vocab text;
  fst <$> vectorize_jobs path (fs, vocab) (lang ← langs; subset ← subsets; [(lang, subset)]).

(** The id sequences that [vectorize_file] is expected to return. *)
Definition corpus_ids (vocab : Py.dict string Z) (text : string) : list (list Z) :=
  (λ line, token_ids vocab line true) <$> Py.readlines text.

(** ** The training loop of [run] *)

Module Train.

(** The exceptions that the loop can raise. *)
Inductive exn :=
| TypeError           (* a call with a keyword that names no parameter *)
| ZeroDivisionError   (* [%] or [/] by zero *)
| OverflowError       (* an [int] too large to convert to a [float] *)
| IndexError          (* a subscript out of range *)
| RuntimeError.       (* raised by the tensor library *)

(** What the loop does to the world outside it. *)
Inductive event :=
| OptimStep (updates : Z)      (* [optim.step(); scheduler.step(); optim.zero_grad()] *)
| AllReduce                    (* [dist.all_reduce(train_rml_tensor)] *)
| Report (updates : Z) (train_rml dev : float)
                               (* [print(f'{updates}:{train_rml}:{dev_loss/numels}')] *)
| SaveCheckpoint (ident : Z).  (* [torch.save(..., f'{store_path}/{ident}.chk')] *)

(** [steps, updates, train_rml]; [train_rml] is [None] or a number. *)
Record state := State {
  steps : Z;
  updates : Z;
  train_rml : option float
}.

(** [steps, updates, train_rml = 0, 0, 0] *)
Definition init : state := {| steps := 0; updates := 0; train_rml := Some 0%float |}.

(** The tensors that the collator returns. *)
Abbreviation tensors :=
  (list (list Z) * list (list Z) * list (list bool) * list (list (list bool)))%type.

(** The external model with its optimizer and schedule, as far as the
    loop uses them; none of it is among the sources. *)
Class Network (net : Type) := {
  train_mode : net → net;                  (* [model.train()] *)
  eval_mode : net → net;                   (* [model.eval()] *)
  go_batch : net → tensors → float;        (* [model.module.go_batch(...).item()] *)
  go_batch_sum : net → tensors → float;    (* the same with [reduction='sum'] *)
  backward : net → tensors → net;          (* [loss.backward()] *)
  optim_step : net → net                   (* [optim.step(); scheduler.step();
                                               optim.zero_grad(set_to_none=True)] *)
}.

(** A model whose loss happens to be 1 on every batch. *)
Definition constant_loss : Network unit :=
  {| train_mode := id; eval_mode := id;
     go_batch := λ _ _, 1%float; go_batch_sum := λ _ _, 1%float;
     backward := λ m _, m; optim_step := id |}.

(** What the loop works on: its three variables, the model, the state
    of the random generator, and the events so far. *)
Record world (rng net : Type) := World {
  vars : state;
  model : net;
  gen : rng;
  log : list event
}.
Arguments World {rng net}.
Arguments vars {rng net}.
Arguments model {rng net}.
Arguments gen {rng net}.
Arguments log {rng net}.

(** Statements change the world and return or raise; what was done
    before an exception stays done. *)
Definition M (W A : Type) : Type := W → (exn + A) * W.

Definition ret {W A} (x : A) : M W A := λ w, (inr x, w).

Definition bind {W A B} (m : M W A) (k : A → M W B) : M W B :=
  λ w, match m w with
       | (inl e, w') => (inl e, w')
       | (inr x, w') => k x w'
       end.

Definition raise {W A} (e : exn) : M W A := λ w, (inl e, w).

Definition get {W} : M W W := λ w, (inr w, w).

#[global] Instance M_ret {W} : MRet (M W) := @ret W.
#[global] Instance M_bind {W} : MBind (M W) := λ A B k m, bind m k.

(** [float(n)]: the binary64 number nearest to [n], ties to even;
    [OverflowError] when that would be infinite. *)
Definition float_of_int (n : Z) : exn + float :=
  match SpecFloat.binary_normalize prec emax n 0 false with
  | SpecFloat.S754_infinity _ => inl OverflowError
  | f => inr (SF2Prim f)
  end.

(** [x / n] for a [float] [x] and an [int] [n]. *)
Definition div_int (x : float) (n : Z) : exn + float :=
  match float_of_int n with
  | inl e => inl e
  | inr d => if n =? 0 then inl ZeroDivisionError else inr (x / d)%float
  end.

(** [def get_batches(self, batch_size: int)]: the parameters that a call
    of the bound method has to supply, none of which has a default. *)
Definition get_batches_parameters : list string := ["batch_size"].

(** Binding the keyword arguments of a call to the parameters: every
    keyword has to name a parameter, and every parameter has to get an
    argument; otherwise the call raises [TypeError]. *)
Definition accepts (parameters keywords : list string) : bool :=
  forallb (λ k, bool_decide (k ∈ parameters)) keywords
  && forallb (λ p, bool_decide (p ∈ keywords)) parameters.

(** [steps += 1], then after the backward pass
    [train_rml = loss.item() if train_rml is None
                 else (0.98 * train_rml + 0.02 * loss.item())]. *)
Definition smooth (st : state) (loss : float) : state :=
  {| steps := steps st + 1;
     updates := updates st;
     train_rml :=
       Some match train_rml st with
            | None => loss
            | Some rml =>
                (0x1.f5c28f5c28f5cp-1 * rml + 0x1.47ae147ae147bp-6 * loss)%float
            end |}.

Section Loop.
Context {rng : Type} {S : Sampler rng} {net : Type} {N : Network net}.
(** The arguments of [run] that the loop reads; [train_set] is the shard
    that [split_ds] returned. *)
Context (rank world_size max_updates batch_size update_every save_every : Z).
Context (train_set dev_set : list PairSample).
(** The collective: what [train_rml_tensor.item()] is after the
    all-reduce, given what the tensor was built from. *)
Context (all_reduce : float → float).

Definition set_vars (f : state → state) : M (world rng net) unit :=
  λ w, (inr tt, {| vars := f (vars w); model := model w; gen := gen w; log := log w |}).

Definition set_model (f : net → net) : M (world rng net) unit :=
  λ w, (inr tt, {| vars := vars w; model := f (model w); gen := gen w; log := log w |}).

Definition emit (ev : event) : M (world rng net) unit :=
  λ w, (inr tt, {| vars := vars w; model := model w; gen := gen w; log := log w ++ [ev] |}).

Definition lift {A} (r : exn + A) : M (world rng net) A :=
  λ w, (r, w).

(** [Dataloader(dataset).get_batches(k1=batch_size, k2=...)] for the
    keywords [keywords], run to its end. *)
Definition call_get_batches (dataset : list PairSample) (keywords : list string)
    : M (world rng net) (list (list PairSample)) :=
  if accepts get_batches_parameters keywords then
    λ w, match Dataloader.get_batches dataset batch_size (gen w) with
         | Some (out, g) =>
             (inr out, {| vars := vars w; model := model w; gen := g; log := log w |})
         | None => (inl IndexError, w)
         end
  else raise TypeError.

(** [collator(batch)] *)
Definition collate (b : list PairSample) : M (world rng net) tensors :=
  match Collator.collate_fn b with
  | Some t => ret t
  | None => raise RuntimeError
  end.

(** [for x in l: body] *)
Fixpoint for_each {A} (body : A → M (world rng net) unit) (l : list A)
    : M (world rng net) unit :=
  match l with
  | [] => ret tt
  | x :: l' => body x;; for_each body l'
  end.

(** [if steps % update_every == 0: ...] *)
Definition maybe_update : M (world rng net) unit :=
  w ← get;
  if update_every =? 0 then raise ZeroDivisionError
  else if steps (vars w) mod update_every =? 0 then
    set_vars (λ st, {| steps := steps st; updates := updates st + 1;
                       train_rml := train_rml st |});;
    set_model optim_step;;
    emit (OptimStep (updates (vars w) + 1))
  else ret tt.

(** The loop over the dev batches, which adds up [dev_loss] and
    [numels]. *)
Fixpoint dev_batches (acc : float * Z) (batches : list (list PairSample))
    : M (world rng net) (float * Z) :=
  match batches with
  | [] => ret acc
  | b :: batches' =>
      t ← collate b;
      w ← get;
      dev_batches ((acc.1 + go_batch_sum (model w) t)%float,
                   acc.2 + count_true (Collator.ne t.1.1.2 (-1)))
                  batches'
  end.

(** The body of [if rank == 0 and updates % 50 == 0: ...]. *)
Definition evaluation : M (world rng net) unit :=
  w ← get;
  rml ← match train_rml (vars w) with
        | Some rml => ret rml
        | None => raise RuntimeError
        end;
  emit AllReduce;;
  rml' ← lift (div_int (all_reduce rml) world_size);
  set_vars (λ st, {| steps := steps st; updates := updates st; train_rml := Some rml' |});;
  set_model eval_mode;;
  batches ← call_get_batches dev_set ["batch_size"; "flip"];
  '(dev_loss, numels) ← dev_batches (0%float, 0) batches;
  mean ← lift (div_int dev_loss numels);
  emit (Report (updates (vars w)) rml' mean);;
  set_model train_mode;;
  if rank =? 0 then
    if save_every =? 0 then raise ZeroDivisionError
    else if updates (vars w) mod save_every =? 0
    then emit (SaveCheckpoint (updates (vars w) / save_every))
    else ret tt
  else ret tt.

(** The body of the [for] loop for one batch. *)
Definition micro_batch (b : list PairSample) : M (world rng net) unit :=
  t ← collate b;
  w ← get;
  set_model (λ m, backward m t);;
  set_vars (λ st, smooth st (go_batch (model w) t));;
  maybe_update;;
  w' ← get;
  if (rank =? 0) && (updates (vars w') mod 50 =? 0) then evaluation else ret tt.

(** One turn of the [while] loop: [model.train()] and the [for] loop
    over [map(collator, train_dl.get_batches(batch_size=batch_size,
    flip=flip))]. *)
Definition pass : M (world rng net) unit :=
  set_model train_mode;;
  batches ← call_get_batches train_set ["batch_size"; "flip"];
  for_each micro_batch batches.

(** [while updates < max_updates: ...], for at most [fuel] turns; the
    result tells whether the loop was left. *)
Fixpoint loop (fuel : nat) : M (world rng net) bool :=
  w ← get;
  if updates (vars w) <? max_updates then
    match fuel with
    | O => ret false
    | Datatypes.S fuel' => pass;; loop fuel'
    end
  else ret true.

(** The loop from its start, lines 95 to 140 of [run]. *)
Definition run_loop (fuel : nat) (m : net) (g : rng) : (exn + bool) * world rng net :=
  loop fuel {| vars := init; model := m; gen := g; log := [] |}.
End Loop.

End Train.

(** * Theorems *)

(** The scenario of four pairs with token counts 3, 3, 7, 2 and budget 6,
    when every shuffle happens to keep the order. *)
Example get_batches_scenario :
  fst <$> Dataloader.get_batches (S := sample_in_order)
     [([1;2],[3]); ([1],[2;3]); ([1;2;3;4],[5;6;7]); ([1],[2])] 6 tt
  = Some [ [([1],[2]); ([1;2],[3])]; [([1],[2]); ([1;2],[3])]; [([1],[2]); ([1;2],[3])];
           [([1],[2;3])]; [([1],[2;3])];
           [([1;2;3;4],[5;6;7])] ].
Proof. vm_compute. reflexivity. Qed.

(** ** Sorting, grouping and shuffling only reorder *)

Section PyFacts.
Context {A : Type} (key : A → Z).

Lemma insert_by_perm x (l : list A) : Py.insert_by key x l ≡ₚ x :: l.
Proof.
  induction l as [|y l IH]; simpl; [done|].
  destruct (key x <=? key y); [done|].
  rewrite IH. apply Permutation_swap.
Qed.

Lemma sorted_perm (l : list A) : Py.sorted key l ≡ₚ l.
Proof.
  induction l as [|x l IH]; simpl; [done|].
  rewrite insert_by_perm. by rewrite IH.
Qed.

Lemma groupby_concat (l : list A) : concat (Py.groupby key l) = l.
Proof.
  induction l as [|x l IH]; simpl; [done|].
  destruct (Py.groupby key l) as [|[|y g] gs]; simpl in *.
  - by rewrite <- IH.
  - by rewrite <- IH.
  - destruct (key x =? key y); simpl; by rewrite <- IH.
Qed.
End PyFacts.

Section BatcherFacts.
Context {rng : Type} {S : Sampler rng}.
Import Dataloader.

Lemma shuffle_groups_perm (gs : list (list nat)) (g : rng) :
  (shuffle_groups gs g).1 ≡ₚ concat gs.
Proof.
  revert g. induction gs as [|vs gs IH]; intros g; simpl; [done|].
  pose proof (shuffle_perm _ vs g) as Hvs.
  destruct (shuffle vs g) as [vs' g1]. specialize (IH g1).
  destruct (shuffle_groups gs g1) as [rest g2]. simpl in *.
  by rewrite Hvs, IH.
Qed.

Lemma indices_perm (counts : list Z) (g : rng) :
  (indices counts g).1 ≡ₚ seq 0 (length counts).
Proof.
  unfold indices. rewrite shuffle_groups_perm, groupby_concat.
  apply sorted_perm.
Qed.

Lemma pair_len_nonneg (e : PairSample) : 0 ≤ pair_len e.
Proof. unfold pair_len. lia. Qed.

Lemma batch_tokens_nonneg (b : list PairSample) : 0 ≤ batch_tokens b.
Proof.
  induction b as [|e b IH]; simpl; [done|].
  pose proof (pair_len_nonneg e). lia.
Qed.

Lemma batch_tokens_app (b : list PairSample) (e : PairSample) :
  batch_tokens (b ++ [e]) = batch_tokens b + pair_len e.
Proof. induction b as [|e' b IH]; simpl; lia. Qed.

Lemma batch_tokens_elem (b : list PairSample) (e : PairSample) :
  e ∈ b → pair_len e ≤ batch_tokens b.
Proof.
  induction 1 as [e b|e e' b _ IH]; simpl.
  - pose proof (batch_tokens_nonneg b). lia.
  - pose proof (pair_len_nonneg e'). lia.
Qed.

Lemma place_Some ds bs st idx st' :
  place ds (token_counts ds) bs st idx = Some st' →
  ∃ item, ds !! idx = Some item ∧
    st' = if num_tokens st + pair_len item >? bs then
            {| heap := heap st ++ [[item]];
               batches := batches st ++ [batch st];
               num_tokens := pair_len item;
               batch := length (heap st) |}
          else
            {| heap := alter (λ b, b ++ [item]) (batch st) (heap st);
               batches := batches st;
               num_tokens := num_tokens st + pair_len item;
               batch := batch st |}.
Proof.
  unfold place, token_counts. rewrite list_lookup_fmap.
  destruct (ds !! idx) as [item|]; simpl; [|done].
  intros [= <-]. by exists item.
Qed.

Lemma place_inv ds bs st idx st' :
  pack_inv bs st →
  place ds (token_counts ds) bs st idx = Some st' →
  pack_inv bs st'.
Proof.
  intros ([cur [Hcur Htok]] & Hok & Hrefs) (item & _ & ->)%place_Some.
  pose proof (lookup_lt_Some _ _ _ Hcur) as Hlt.
  destruct (num_tokens st + pair_len item >? bs) eqn:Hcmp; unfold pack_inv; simpl.
  - split_and!.
    + exists [item]. split.
      * by rewrite lookup_app_r, Nat.sub_diag by lia.
      * simpl. lia.
    + apply Forall_app. split; [done|]. apply Forall_singleton.
      right. destruct (decide (pair_len item ≤ bs)).
      * left. simpl. lia.
      * right. exists item. split; [done|lia].
    + rewrite length_app. simpl. apply Forall_app. split.
      * eapply Forall_impl; [exact Hrefs|]. simpl. lia.
      * apply Forall_singleton. lia.
  - split_and!.
    + exists (cur ++ [item]). split.
      * by rewrite list_lookup_alter_eq, Hcur.
      * rewrite batch_tokens_app. lia.
    + apply Forall_alter; [done|]. intros b Hb _.
      assert (b = cur) as -> by congruence.
      right. left. rewrite batch_tokens_app. lia.
    + by rewrite length_alter.
Qed.

Lemma emit_inv bs st : pack_inv bs st → pack_inv bs (emit st).
Proof.
  intros (Hcur & Hok & Hrefs). unfold emit.
  destruct (truthy st (batch st)); [|done].
  split_and!; simpl; [done..|].
  apply Forall_app. split; [done|]. apply Forall_singleton.
  destruct Hcur as (cur & Hcur & _). by eapply lookup_lt_Some.
Qed.

Lemma pack_init_inv bs : pack_inv bs pack_init.
Proof.
  split_and!; simpl.
  - by exists [].
  - apply Forall_singleton. by left.
  - constructor.
Qed.

Lemma pack_loop_inv ds bs idxs st st' :
  pack_inv bs st →
  pack_loop ds (token_counts ds) bs st idxs = Some st' →
  pack_inv bs st'.
Proof.
  revert st. induction idxs as [|idx idxs IH]; intros st Hinv; simpl.
  - by intros [= <-].
  - unfold pack_step.
    destruct (place ds (token_counts ds) bs st idx) as [st1|] eqn:Hpl; simpl; [|done].
    apply IH. apply emit_inv. by eapply place_inv.
Qed.

Lemma place_grows ds bs st idx st' :
  pack_inv bs st →
  place ds (token_counts ds) bs st idx = Some st' →
  (∀ r b, heap st !! r = Some b → ∃ b', heap st' !! r = Some b' ∧ b ⊆ b')
  ∧ batches st ⊆ batches st'
  ∧ ∃ item cur, ds !! idx = Some item ∧ heap st' !! batch st' = Some (cur ++ [item]).
Proof.
  intros ([cur [Hcur Htok]] & _ & _) (item & Hitem & ->)%place_Some.
  pose proof (lookup_lt_Some _ _ _ Hcur) as Hlt.
  destruct (num_tokens st + pair_len item >? bs); simpl; split_and!.
  - intros r b Hb. exists b. split; [|done].
    rewrite lookup_app_l; [done|]. by eapply lookup_lt_Some.
  - set_solver.
  - exists item, []. split; [done|].
    by rewrite lookup_app_r, Nat.sub_diag by lia.
  - intros r b Hb. rewrite list_lookup_alter.
    destruct (decide (batch st = r)) as [->|]; [|by exists b].
    rewrite Hb. simpl. exists (b ++ [item]). split; [done|set_solver].
  - done.
  - exists item, cur. split; [done|].
    by rewrite list_lookup_alter_eq, Hcur.
Qed.

Lemma emit_batches st : batches st ⊆ batches (emit st) ∧ heap (emit st) = heap st.
Proof. unfold emit. destruct (truthy st (batch st)); simpl; set_solver. Qed.

Lemma emit_current st cur item :
  heap st !! batch st = Some (cur ++ [item]) → batch st ∈ batches (emit st).
Proof.
  intros Hb. unfold emit, truthy. rewrite Hb.
  destruct cur; simpl; set_solver.
Qed.

Lemma pack_step_covered ds bs st idx st' :
  pack_inv bs st →
  pack_step ds (token_counts ds) bs st idx = Some st' →
  (∀ e, covered st e → covered st' e)
  ∧ ∃ item, ds !! idx = Some item ∧ covered st' item.
Proof.
  intros Hinv. unfold pack_step.
  destruct (place ds (token_counts ds) bs st idx) as [st1|] eqn:Hpl; simpl; [|done].
  intros [= <-].
  destruct (place_grows _ _ _ _ _ Hinv Hpl) as (Hgrow & Hsub & item & cur & Hitem & Hcur).
  destruct (emit_batches st1) as [Hsub' Hheap].
  split.
  - intros e (r & b & Hr & Hb & He).
    destruct (Hgrow _ _ Hb) as (b' & Hb' & Hbb').
    exists r, b'. rewrite Hheap. set_solver.
  - exists item. split; [done|].
    exists (batch st1), (cur ++ [item]). rewrite Hheap.
    split_and!; [by eapply emit_current|done|set_solver].
Qed.

Lemma pack_loop_covered ds bs idxs st st' :
  pack_inv bs st →
  pack_loop ds (token_counts ds) bs st idxs = Some st' →
  (∀ e, covered st e → covered st' e)
  ∧ ∀ idx, idx ∈ idxs → ∃ item, ds !! idx = Some item ∧ covered st' item.
Proof.
  revert st. induction idxs as [|idx idxs IH]; intros st Hinv; simpl.
  - intros [= <-]. split; [done|]. intros idx []%elem_of_nil.
  - destruct (pack_step ds (token_counts ds) bs st idx) as [st1|] eqn:Hstep; simpl; [|done].
    intros Hloop.
    assert (pack_inv bs st1) as Hinv1.
    { unfold pack_step in Hstep.
      destruct (place ds (token_counts ds) bs st idx) as [st0|] eqn:Hpl; simplify_eq/=.
      apply emit_inv. by eapply place_inv. }
    destruct (pack_step_covered _ _ _ _ _ Hinv Hstep) as (Hmono & item & Hitem & Hcov).
    destruct (IH _ Hinv1 Hloop) as [Hmono' Hall].
    split; [by auto|].
    intros idx' [->|Hin]%elem_of_cons; [|by auto].
    exists item. auto.
Qed.

Lemma pack_loop_total ds bs idxs st :
  Forall (λ idx, idx < length ds)%nat idxs →
  is_Some (pack_loop ds (token_counts ds) bs st idxs).
Proof.
  intros Hidx. revert st.
  induction Hidx as [|idx idxs Hlt _ IH]; intros st; simpl; [done|].
  unfold pack_step, place, token_counts. rewrite list_lookup_fmap.
  destruct (lookup_lt_is_Some_2 ds idx Hlt) as [item ->]. simpl. apply IH.
Qed.

(** One call of [get_batches] returns: the loop runs over some ordering
    [idxs] of all indices, and the yielded batches are the objects named
    by some ordering [refs] of the references the loop has stored. *)
Lemma get_batches_run (ds : list PairSample) (batch_size : Z) (g : rng) :
  ∃ idxs st refs out g',
    idxs ≡ₚ seq 0 (length ds)
    ∧ pack_loop ds (token_counts ds) batch_size pack_init idxs = Some st
    ∧ refs ≡ₚ batches st
    ∧ Forall2 (λ r b, heap st !! r = Some b) refs out
    ∧ get_batches ds batch_size g = Some (out, g').
Proof.
  unfold get_batches.
  pose proof (indices_perm (token_counts ds) g) as Hperm.
  destruct (indices (token_counts ds) g) as [idxs g1]. simpl in Hperm.
  assert (length (token_counts ds) = length ds) as Hlen
    by (unfold token_counts; by rewrite length_fmap).
  rewrite Hlen in Hperm.
  assert (Forall (λ idx, idx < length ds)%nat idxs) as Hidx.
  { rewrite Hperm. apply Forall_seq. lia. }
  destruct (pack_loop_total ds batch_size idxs pack_init Hidx) as [st Hst].
  rewrite Hst. simpl.
  pose proof (pack_loop_inv _ _ _ _ _ (pack_init_inv batch_size) Hst) as Hinv.
  pose proof (shuffle_perm _ (batches st) g1) as Hrefs.
  destruct (shuffle (batches st) g1) as [refs g2]. simpl in Hrefs.
  assert (is_Some (mapM (λ ref, heap st !! ref) refs)) as [out Hout].
  { apply mapM_is_Some. rewrite Hrefs.
    destruct Hinv as (_ & _ & Hlive).
    eapply Forall_impl; [exact Hlive|]. intros r Hr. by apply lookup_lt_is_Some_2. }
  rewrite Hout. simpl. exists idxs, st, refs, out, g2.
  split_and!; try done. by apply mapM_Some.
Qed.

Lemma get_batches_yielded (ds : list PairSample) (batch_size : Z) (g : rng) :
  ∃ st out g',
    get_batches ds batch_size g = Some (out, g')
    ∧ pack_inv batch_size st
    ∧ (∀ e, e ∈ ds → covered st e)
    ∧ (∀ b, b ∈ out ↔ ∃ r, r ∈ batches st ∧ heap st !! r = Some b).
Proof.
  destruct (get_batches_run ds batch_size g)
    as (idxs & st & refs & out & g' & Hperm & Hst & Hrefs & Hout & Hget).
  pose proof (pack_loop_inv _ _ _ _ _ (pack_init_inv batch_size) Hst) as Hinv.
  destruct (pack_loop_covered _ _ _ _ _ (pack_init_inv batch_size) Hst) as [_ Hcov].
  exists st, out, g'. split_and!; [done..| |].
  - intros e (idx & He)%list_elem_of_lookup_1.
    destruct (Hcov idx) as (item & Hitem & Hc).
    + rewrite Hperm. apply elem_of_seq. pose proof (lookup_lt_Some _ _ _ He). lia.
    + congruence.
  - intros b. split.
    + intros (i & Hi)%list_elem_of_lookup_1.
      destruct (Forall2_lookup_r _ _ _ _ _ Hout Hi) as (r & Hr & Hrb).
      exists r. split; [|done]. rewrite <- Hrefs. by eapply list_elem_of_lookup_2.
    + intros (r & Hr & Hrb). rewrite <- Hrefs in Hr.
      apply list_elem_of_lookup_1 in Hr as [i Hi].
      destruct (Forall2_lookup_l _ _ _ _ _ Hout Hi) as (b' & Hb' & Hrb').
      assert (b' = b) as -> by congruence. by eapply list_elem_of_lookup_2.
Qed.

(** X24.  For every shard, budget and random outcome, [get_batches]
    returns, and every yielded batch that is non-empty (every yielded
    batch, when the budget is not negative) has a total token count of at
    most the budget, unless it is a single pair whose own count exceeds
    the budget; a pair that exceeds the budget is alone in any yielded
    batch that holds it; and every pair of the shard is in some yielded
    batch. *)
Theorem get_batches_budget (ds : list PairSample) (batch_size : Z) (g : rng) :
  ∃ out g',
    get_batches ds batch_size g = Some (out, g')
    ∧ (∀ b, b ∈ out → b ≠ [] ∨ 0 ≤ batch_size → within_budget batch_size b)
    ∧ (∀ b e, b ∈ out → e ∈ b → batch_size < pair_len e → b = [e])
    ∧ (∀ e, e ∈ ds → ∃ b, b ∈ out ∧ e ∈ b).
Proof.
  destruct (get_batches_yielded ds batch_size g)
    as (st & out & g' & Hget & (_ & Hok & _) & Hcov & Hout).
  exists out, g'. split; [done|].
  assert (∀ b, b ∈ out → pack_ok batch_size b) as Hpack.
  { intros b (r & _ & Hb)%Hout. rewrite Forall_lookup in Hok. eauto. }
  split_and!.
  - intros b Hb Hne. destruct (Hpack b Hb) as [->|]; [|done].
    destruct Hne as [|]; [done|]. by left.
  - intros b e Hb He Hbig. destruct (Hpack b Hb) as [->|[Hle|(e' & -> & _)]].
    + by apply elem_of_nil in He.
    + pose proof (batch_tokens_elem b e He). lia.
    + apply list_elem_of_singleton in He. by subst.
  - intros e (r & b & Hr & Hb & He)%Hcov. exists b. split; [|done].
    apply Hout. eauto.
Qed.

(** C1.  The claim fails on the code whatever the random outcomes are.
    On the two pairs [([1],[2])] and [([3],[4])] with budget 10 the only
    batch, holding both pairs, is yielded twice, so each index is in two
    yielded batches; on the single pair [([1;2],[3])] with budget 2 an
    empty batch is yielded next to the batch of that pair. *)
Theorem get_batches_repeats (g : rng) :
  (∃ b g', get_batches [([1],[2]); ([3],[4])] 10 g = Some ([b; b], g')
           ∧ b ≡ₚ [([1],[2]); ([3],[4])])
  ∧ (∃ out g', get_batches [([1;2],[3])] 2 g = Some (out, g')
               ∧ out ≡ₚ [ []; [([1;2],[3])] ]).
Proof.
  split.
  - destruct (get_batches_run [([1],[2]); ([3],[4])] 10 g)
      as (idxs & st & refs & out & g' & Hperm & Hst & Hrefs & Hout & Hget).
    symmetry in Hperm. apply Permutation_length_2_inv in Hperm as [->| ->];
      vm_compute in Hst; injection Hst as <-; simpl in *;
      symmetry in Hrefs; apply Permutation_length_2_inv in Hrefs as [->| ->];
      repeat match goal with
             | H : Forall2 _ (_ :: _) _ |- _ => apply Forall2_cons_inv_l in H as (? & ? & ? & H & ->)
             | H : Forall2 _ [] _ |- _ => apply Forall2_nil_inv_l in H as ->
             end; simplify_eq/=; eexists _, g'; (split; [exact Hget|]).
    all: first [reflexivity | apply Permutation_swap].
  - destruct (get_batches_run [([1;2],[3])] 2 g)
      as (idxs & st & refs & out & g' & Hperm & Hst & Hrefs & Hout & Hget).
    simpl in Hperm. apply Permutation_singleton_r in Hperm. subst idxs.
    vm_compute in Hst. injection Hst as <-. simpl in *.
    exists out, g'. split; [done|].
    symmetry in Hrefs. apply Permutation_length_2_inv in Hrefs as [->| ->];
      repeat match goal with
             | H : Forall2 _ (_ :: _) _ |- _ => apply Forall2_cons_inv_l in H as (? & ? & ? & H & ->)
             | H : Forall2 _ [] _ |- _ => apply Forall2_nil_inv_l in H as ->
             end; simplify_eq/=.
    all: first [reflexivity | apply Permutation_swap].
Qed.

(** C2.  The claim fails on the code for a negative budget, whatever the
    random outcomes are: on the single pair [([1],[2])] with budget -1
    the batch that the loop closes before the first pair is empty, it is
    yielded next to the batch of the pair, and its token count 0 exceeds
    the budget although it is no single oversized pair. *)
Theorem get_batches_budget_negative (g : rng) :
  ∃ out g', get_batches [([1],[2])] (-1) g = Some (out, g')
            ∧ out ≡ₚ [ []; [([1],[2])] ]
            ∧ ¬ within_budget (-1) [].
Proof.
  destruct (get_batches_run [([1],[2])] (-1) g)
    as (idxs & st & refs & out & g' & Hperm & Hst & Hrefs & Hout & Hget).
  simpl in Hperm. apply Permutation_singleton_r in Hperm. subst idxs.
  vm_compute in Hst. injection Hst as <-. simpl in *.
  exists out, g'. split_and!; [done| |].
  - symmetry in Hrefs. apply Permutation_length_2_inv in Hrefs as [->| ->];
      repeat match goal with
             | H : Forall2 _ (_ :: _) _ |- _ => apply Forall2_cons_inv_l in H as (? & ? & ? & H & ->)
             | H : Forall2 _ [] _ |- _ => apply Forall2_nil_inv_l in H as ->
             end; simplify_eq/=.
    all: first [reflexivity | apply Permutation_swap].
  - intros [Hle|(e & He & _)]; [by vm_compute in Hle|done].
Qed.

End BatcherFacts.

(** ** [sorted] is the stable ascending sort *)

Section SortedFacts.
Context {A : Type} (key : A → Z).

Lemma insert_by_sorted x (l : list A) :
  StronglySorted (λ a b, key a ≤ key b) l →
  StronglySorted (λ a b, key a ≤ key b) (Py.insert_by key x l).
Proof.
  induction 1 as [|y l Hs IH Hy]; simpl.
  - repeat constructor.
  - destruct (Z.leb_spec (key x) (key y)) as [Hle|Hgt].
    + constructor; [by constructor|].
      constructor; [done|]. eapply Forall_impl; [exact Hy|]. simpl. lia.
    + constructor; [done|]. rewrite insert_by_perm.
      constructor; [lia|done].
Qed.

Lemma sorted_sorted (l : list A) :
  StronglySorted (λ a b, key a ≤ key b) (Py.sorted key l).
Proof.
  induction l as [|x l IH]; simpl; [constructor|]. by apply insert_by_sorted.
Qed.

Lemma insert_by_filter k x (l : list A) :
  filter (λ a, key a = k) (Py.insert_by key x l) = filter (λ a, key a = k) (x :: l).
Proof.
  induction l as [|y l IH]; simpl; [done|].
  destruct (Z.leb_spec (key x) (key y)) as [Hle|Hgt]; [done|].
  rewrite (filter_cons _ y), IH, !filter_cons.
  repeat case_decide; try done; lia.
Qed.

(** Entries with equal keys keep their relative order. *)
Lemma sorted_stable k (l : list A) :
  filter (λ a, key a = k) (Py.sorted key l) = filter (λ a, key a = k) l.
Proof.
  induction l as [|x l IH]; simpl; [done|].
  by rewrite insert_by_filter, !filter_cons, IH.
Qed.
End SortedFacts.

(** ** Strided slices *)

Section StrideFacts.
Context {A : Type}.
Implicit Types l : list A.

Lemma stride_short skip step l :
  (length l ≤ skip)%nat → Py.stride skip step l = [].
Proof.
  revert skip. induction l as [|x l IH]; intros skip Hlen; simpl in *; [done|].
  destruct skip as [|k]; [lia|]. apply IH. lia.
Qed.

Lemma stride_lookup skip step l (k : nat) :
  Py.stride skip step l !! k = l !! (skip + k * S step)%nat.
Proof.
  revert skip k. induction l as [|x l IH]; intros skip k; simpl.
  - by rewrite !lookup_nil.
  - destruct skip as [|s].
    + destruct k as [|k]; simpl; [done|]. by rewrite IH.
    + by rewrite IH.
Qed.

Lemma stride_at_positions skip step pos l (r : nat) :
  (skip ≤ step)%nat → (r ≤ step)%nat →
  ((pos + skip) mod S step = r)%nat →
  Py.stride skip step l = at_positions (λ i, (i mod S step =? r)%nat) pos l.
Proof.
  revert skip pos. induction l as [|x l IH]; intros skip pos Hskip Hr Hmod;
    cbn [Py.stride at_positions]; [done|].
  destruct skip as [|k].
  - rewrite Nat.add_0_r in Hmod. rewrite Hmod, Nat.eqb_refl. f_equal.
    apply IH; [lia..|].
    replace (S pos + step)%nat with (pos + 1 * S step)%nat by lia.
    by rewrite Nat.Div0.mod_add.
  - destruct (Nat.eqb_spec (pos mod S step) r) as [Heq|_].
    + exfalso.
      pose proof (Nat.div_mod_eq pos (S step)) as H1.
      pose proof (Nat.div_mod_eq (pos + S k) (S step)) as H2.
      rewrite Hmod in H2. rewrite Heq in H1.
      set (q1 := (pos / S step)%nat) in *. set (q2 := ((pos + S k) / S step)%nat) in *.
      assert (S k = S step * q2 - S step * q1)%nat as Hk by lia.
      destruct (decide (q2 ≤ q1)%nat); [nia|].
      assert (S step * q2 ≥ S step * q1 + S step)%nat by nia. lia.
    + apply IH; [lia..|].
      by replace (S pos + k)%nat with (pos + S k)%nat by lia.
Qed.

Lemma stride_succ skip step x l :
  Py.stride (S skip) step (x :: l) = Py.stride skip step l.
Proof. done. Qed.

(** The slices for the starts [0 .. step] together hold every element
    once. *)
Lemma stride_union step l :
  concat ((λ r, Py.stride r step l) <$> seq 0 (S step)) ≡ₚ l.
Proof.
  induction l as [|x l IH].
  - induction (seq 0 (S step)) as [|r rs IHr]; [done|]. simpl. done.
  - rewrite <- cons_seq, fmap_cons, concat_cons. simpl Py.stride at 1.
    rewrite <- fmap_S_seq, <- list_fmap_compose.
    rewrite (list_fmap_ext _ (λ r, Py.stride r step l) (seq 0 step)) by done.
    simpl. constructor.
    rewrite seq_S, fmap_app, concat_app in IH. simpl in IH.
    rewrite app_nil_r in IH. etrans; [apply Permutation_app_comm|exact IH].
Qed.
End StrideFacts.

(** ** [split_ds] *)

Lemma at_positions_ext {A} (P Q : nat → bool) pos (l : list A) :
  (∀ i, P i = Q i) → at_positions P pos l = at_positions Q pos l.
Proof.
  intros HPQ. revert pos. induction l as [|x l IH]; intros pos; simpl; [done|].
  by rewrite HPQ, IH.
Qed.

Lemma slice_rank {A} (l : list A) (world_size rank : Z) :
  0 ≤ rank < world_size →
  Py.slice_from_step l rank world_size
  = Some (Py.stride (Z.to_nat rank) (Z.to_nat world_size - 1) l).
Proof.
  intros Hr. unfold Py.slice_from_step.
  destruct (Z.eqb_spec world_size 0); [lia|].
  destruct (Z.ltb_spec 0 world_size); [|lia].
  destruct (Z.ltb_spec rank 0); [lia|].
  replace (Z.to_nat (world_size - 1)) with (Z.to_nat world_size - 1)%nat by lia.
  destruct (decide (rank ≤ Z.of_nat (length l))).
  - by rewrite Z.min_l.
  - rewrite Z.min_r, Nat2Z.id by lia.
    by rewrite !stride_short by lia.
Qed.

Lemma shard_of_slice (entries : list PairSample) (world_size rank : Z) :
  shard_of entries world_size rank
  = Py.slice_from_step (Py.sorted pair_len entries) rank world_size.
Proof.
  unfold shard_of, split_ds, alloc. simpl.
  by destruct (Py.slice_from_step (Py.sorted pair_len entries) rank world_size).
Qed.

Lemma shard_of_stride (entries : list PairSample) (world_size rank : Z) :
  0 ≤ rank < world_size →
  shard_of entries world_size rank
  = Some (Py.stride (Z.to_nat rank) (Z.to_nat world_size - 1) (Py.sorted pair_len entries)).
Proof. intros. by rewrite shard_of_slice, slice_rank. Qed.

(** C4.  For a world size [W] and a rank [r] with [0 <= r < W],
    [split_ds] returns exactly the entries whose position in the dataset
    sorted (stably, ascending) by source length plus target length is
    congruent to [r] modulo [W]; the shards of the ranks [0 .. W-1]
    together are a permutation of the dataset; and for [W = 1] the shard
    is the whole sorted dataset. *)
Theorem split_ds_partition (entries : list PairSample) (world_size rank : Z) :
  0 ≤ rank < world_size →
  shard_of entries world_size rank = Some (congruent_positions entries world_size rank)
  ∧ (∃ shards,
        mapM (λ r, shard_of entries world_size (Z.of_nat r)) (seq 0 (Z.to_nat world_size))
        = Some shards
        ∧ concat shards ≡ₚ entries)
  ∧ (world_size = 1 →
        shard_of entries world_size rank = Some (Py.sorted pair_len entries)
        ∧ Py.sorted pair_len entries ≡ₚ entries
        ∧ StronglySorted (λ a b, pair_len a ≤ pair_len b) (Py.sorted pair_len entries)).
Proof.
  intros Hr.
  assert (∃ step, Z.to_nat world_size = S step) as [step Hstep]
    by (exists (Z.to_nat world_size - 1)%nat; lia).
  split_and!.
  - rewrite shard_of_stride by done. f_equal. unfold congruent_positions.
    rewrite Hstep. replace (S step - 1)%nat with step by lia.
    rewrite (stride_at_positions _ _ 0 _ (Z.to_nat rank)).
    + apply at_positions_ext. intros i.
      replace world_size with (Z.of_nat (S step)) by lia.
      rewrite <- Nat2Z.inj_mod.
      destruct (Nat.eqb_spec (i mod S step) (Z.to_nat rank)),
        (Z.eqb_spec (Z.of_nat (i mod S step)) rank); try done; lia.
    + lia.
    + lia.
    + apply Nat.mod_small. lia.
  - exists ((λ r, Py.stride r step (Py.sorted pair_len entries)) <$> seq 0 (S step)).
    split.
    + rewrite Hstep. apply mapM_Some_2, Forall2_fmap_r, Forall_Forall2_diag.
      apply Forall_seq. intros r Hlt.
      rewrite shard_of_stride by lia.
      rewrite Nat2Z.id, Hstep. do 2 f_equal. lia.
    + rewrite stride_union. apply sorted_perm.
  - intros ->. assert (rank = 0) as -> by lia.
    rewrite shard_of_stride by lia.
    split_and!; [|apply sorted_perm|apply sorted_sorted].
    f_equal. change (Z.to_nat 1 - 1)%nat with 0%nat. change (Z.to_nat 0) with 0%nat.
    induction (Py.sorted pair_len entries) as [|x l IH]; simpl; [done|]. by rewrite IH.
Qed.

(** C10.  Whatever the arguments, and whether the call returns or raises,
    the list object that the caller passed is the same after the call;
    so is every other list object that existed before it. *)
Theorem split_ds_frame (h : store) (dataset : nat) (world_size rank : Z) :
  (split_ds h dataset world_size rank).1 !! dataset = h !! dataset
  ∧ ∀ ref, (ref < length h)%nat →
      (split_ds h dataset world_size rank).1 !! ref = h !! ref.
Proof.
  assert (∀ ref, (ref < length h)%nat →
            (split_ds h dataset world_size rank).1 !! ref = h !! ref) as Hframe.
  { intros ref Hlt. unfold split_ds, alloc.
    destruct (h !! dataset) as [entries|]; [|done].
    cbv beta iota zeta. rewrite lookup_app_r, Nat.sub_diag by lia. simpl.
    destruct (Py.slice_from_step _ _ _) as [shard|]; simpl.
    - rewrite !lookup_app_l; [done|lia|]. rewrite length_app. simpl. lia.
    - by rewrite lookup_app_l. }
  split; [|done].
  destruct (decide (dataset < length h)%nat); [by apply Hframe|].
  unfold split_ds. destruct (h !! dataset) eqn:E.
  - apply lookup_lt_Some in E. lia.
  - done.
Qed.

(** ** Dictionaries *)

Section DictFacts.
Context {K V : Type} `{EqDecision K}.
Implicit Types (l : list (K * V)) (d : Py.dict K V).

Lemma assoc_app k l l' :
  Py.assoc k (l ++ l') = match Py.assoc k l with Some v => Some v | None => Py.assoc k l' end.
Proof.
  induction l as [|[k' v'] l IH]; simpl; [done|]. by case_decide.
Qed.

Lemma assoc_None k l : Py.assoc k l = None ↔ k ∉ l.*1.
Proof.
  induction l as [|[k' v'] l IH]; simpl.
  - split; [intros _ []%elem_of_nil|done].
  - rewrite not_elem_of_cons. case_decide as Hk.
    + subst. split; [done|]. by intros [? _].
    + rewrite IH. split; [by intros ?|by intros [_ ?]].
Qed.

Lemma assoc_Some_elem k v l : Py.assoc k l = Some v → (k, v) ∈ l.
Proof.
  induction l as [|[k' v'] l IH]; simpl; [done|].
  case_decide; [intros [= ->]; subst; set_solver|set_solver].
Qed.

Lemma assoc_NoDup k v l : NoDup l.*1 → (k, v) ∈ l → Py.assoc k l = Some v.
Proof.
  induction l as [|[k' v'] l IH]; simpl; [by intros _ []%elem_of_nil|].
  intros [Hnotin Hnd]%NoDup_cons [[= -> ->]|Hin]%elem_of_cons.
  - by rewrite decide_True.
  - rewrite decide_False; [by apply IH|].
    intros ->. apply Hnotin. apply list_elem_of_fmap. by exists (k', v).
Qed.

(** A lookup in a [defaultdict] returns the entry or the default, and
    leaves a [defaultdict] with the same default that answers every
    lookup as before. *)
Lemma getitem_default d k v0 :
  Py.default_factory d = Some v0 →
  ∃ d', Py.getitem d k = Some (default v0 (Py.assoc k (Py.items d)), d')
        ∧ Py.default_factory d' = Some v0
        ∧ ∀ k', default v0 (Py.assoc k' (Py.items d')) = default v0 (Py.assoc k' (Py.items d)).
Proof.
  intros Hdef. unfold Py.getitem. rewrite Hdef.
  destruct (Py.assoc k (Py.items d)) as [v|] eqn:Hk; simpl.
  - by exists d.
  - eexists. split_and!; [done..|]. intros k'. simpl. rewrite assoc_app.
    destruct (Py.assoc k' (Py.items d)); simpl; [done|]. by case_decide.
Qed.

Lemma getitems_default d keys v0 :
  Py.default_factory d = Some v0 →
  ∃ d', getitems d keys = Some ((λ k, default v0 (Py.assoc k (Py.items d))) <$> keys, d')
        ∧ Py.default_factory d' = Some v0
        ∧ ∀ k', default v0 (Py.assoc k' (Py.items d')) = default v0 (Py.assoc k' (Py.items d)).
Proof.
  revert d. induction keys as [|k keys IH]; intros d Hdef; simpl.
  - by exists d.
  - destruct (getitem_default d k v0 Hdef) as (d1 & -> & Hdef1 & Hsame1). simpl.
    destruct (IH d1 Hdef1) as (d2 & -> & Hdef2 & Hsame2). simpl.
    exists d2. split_and!; [|done|].
    + do 3 f_equal. apply list_fmap_ext. intros _ k' _. apply Hsame1.
    + intros k'. by rewrite Hsame2.
Qed.
End DictFacts.

(** ** Loading a vocabulary and vectorizing never fail *)

Lemma split_on_nonempty sep s : Py.split_on sep s ≠ [].
Proof.
  destruct s as [|c s]; simpl; [done|].
  case_decide; [done|]. by destruct (Py.split_on sep s).
Qed.

Lemma key_of_line_total k : is_Some (key_of_line k).
Proof.
  unfold key_of_line.
  pose proof (split_on_nonempty Py.tab (Py.rstrip Py.newline k)).
  by destruct (Py.split_on _ _).
Qed.

Lemma read_vocab_total text :
  ∃ vocab, read_vocab text = Some vocab ∧ Py.default_factory vocab = Some 2.
Proof.
  unfold read_vocab.
  assert (is_Some (mapM (λ ik : nat * string, key ← key_of_line ik.2; Some (key, Z.of_nat ik.1))
                        (enumerate (Py.readlines text)))) as [pairs ->].
  { apply mapM_is_Some, Forall_forall. intros [i k] _. simpl.
    destruct (key_of_line_total k) as [key ->]. by eexists. }
  simpl. by eexists.
Qed.

Lemma vectorize_default vocab line wrap :
  Py.default_factory vocab = Some 2 →
  ∃ vocab', vectorize line vocab wrap = Some (token_ids vocab line wrap, vocab')
            ∧ Py.default_factory vocab' = Some 2
            ∧ ∀ word, token_id vocab' word = token_id vocab word.
Proof.
  intros Hdef. unfold vectorize, token_ids.
  destruct (getitems_default vocab (Py.split line) 2 Hdef) as (v1 & -> & Hdef1 & Hsame1).
  simpl. destruct wrap; [|by exists v1].
  destruct (getitem_default v1 SOS 2 Hdef1) as (v2 & -> & Hdef2 & Hsame2). simpl.
  destruct (getitem_default v2 EOS 2 Hdef2) as (v3 & -> & Hdef3 & Hsame3). simpl.
  exists v3. split_and!; [|done|].
  - unfold token_id. by rewrite (Hsame2 EOS), !Hsame1.
  - intros word. unfold token_id. by rewrite Hsame3, Hsame2, Hsame1.
Qed.

Lemma vectorize_lines_default vocab lines wrap :
  Py.default_factory vocab = Some 2 →
  ∃ vocab', vectorize_lines lines vocab wrap
            = Some ((λ line, token_ids vocab line wrap) <$> lines, vocab').
Proof.
  revert vocab. induction lines as [|line lines IH]; intros vocab Hdef; simpl.
  - by exists vocab.
  - destruct (vectorize_default vocab line wrap Hdef) as (v1 & -> & Hdef1 & Hsame). simpl.
    destruct (IH v1 Hdef1) as (v2 & ->). simpl. exists v2. do 3 f_equal.
    apply list_fmap_ext. intros _ l _. unfold token_ids.
    assert (token_id v1 <$> Py.split l = token_id vocab <$> Py.split l) as ->
      by (apply list_fmap_ext; auto).
    by rewrite !Hsame.
Qed.

(** C9.  Loading any vocabulary text succeeds; in the loaded vocabulary a
    word that is not the first field of any line looks up to 2 without
    failing; [vectorize] returns on every line, mapping each word to its
    id or else to 2, and so does [vectorize_file] on every text. *)
Theorem vectorize_never_fails (text : string) :
  ∃ vocab,
    read_vocab text = Some vocab
    ∧ (∀ word, word ∉ (Py.items vocab).*1 →
         ∃ vocab', Py.getitem vocab word = Some (2, vocab'))
    ∧ (∀ line wrap, ∃ vocab',
         vectorize line vocab wrap = Some (token_ids vocab line wrap, vocab'))
    ∧ (∀ file wrap, ∃ vocab',
         vectorize_file file vocab wrap
         = Some ((λ line, token_ids vocab line wrap) <$> Py.readlines file, vocab')).
Proof.
  destruct (read_vocab_total text) as (vocab & Hread & Hdef).
  exists vocab. split_and!; [done|..].
  - intros word Hword%assoc_None.
    destruct (getitem_default vocab word 2 Hdef) as (vocab' & Hget & _).
    rewrite Hword in Hget. by exists vocab'.
  - intros line wrap.
    destruct (vectorize_default vocab line wrap Hdef) as (vocab' & Hv & _). by exists vocab'.
  - intros file wrap. by apply vectorize_lines_default.
Qed.

(** ** The training loop *)

Section TrainFacts.
Import Train.
Context {rng : Type} {S : Sampler rng} {net : Type} {N : Network net}.
Context (rank world_size max_updates batch_size update_every save_every : Z).
Context (train_set dev_set : list PairSample) (all_reduce : float → float).

(** The branch [train_rml is None] is never taken: [train_rml] starts as
    a number and stays one. *)
Lemma smooth_is_number st loss : is_Some (train_rml (smooth st loss)).
Proof. by eexists. Qed.

(** From a number, the assignment smooths. *)
Lemma smooth_subsequent st rml loss :
  train_rml st = Some rml →
  train_rml (smooth st loss)
  = Some (0x1.f5c28f5c28f5cp-1 * rml + 0x1.47ae147ae147bp-6 * loss)%float.
Proof. intros Hrml. unfold smooth. simpl. by rewrite Hrml. Qed.

(** With the initial value 0 of line 95 the assignment of line 109 gives,
    for a raw loss of 1, the binary64 number nearest to 0.02 and not the
    raw loss. *)
Lemma smooth_first :
  train_rml (smooth init 1%float) = Some 0x1.47ae147ae147bp-6%float
  ∧ train_rml (smooth init 1%float) ≠ Some 1%float.
Proof.
  split; [vm_compute; reflexivity|].
  intros Heq.
  apply (f_equal (λ o, match o with
                       | Some x => PrimFloat.ltb x 0x1p-1%float
                       | None => false
                       end)) in Heq.
  vm_compute in Heq. discriminate.
Qed.

(** The keyword [flip] names no parameter of [get_batches]: the call
    raises before the generator is made, and nothing has changed. *)
Lemma call_with_flip_raises (dataset : list PairSample) (w : world rng net) :
  call_get_batches batch_size dataset ["batch_size"; "flip"] w = (inl TypeError, w).
Proof. reflexivity. Qed.

(** A turn of the [while] loop puts the model into training mode and
    raises at the call of [get_batches]. *)
Lemma pass_raises (w : world rng net) :
  pass rank world_size batch_size update_every save_every train_set dev_set all_reduce w
  = (inl TypeError,
     {| vars := vars w; model := train_mode (model w); gen := gen w; log := log w |}).
Proof. reflexivity. Qed.

Lemma loop_unfold (fuel : nat) (w : world rng net) :
  loop rank world_size max_updates batch_size update_every save_every
       train_set dev_set all_reduce fuel w
  = if updates (vars w) <? max_updates then
      match fuel with
      | O => (inr false, w)
      | Datatypes.S _ =>
          (inl TypeError,
           {| vars := vars w; model := train_mode (model w); gen := gen w; log := log w |})
      end
    else (inr true, w).
Proof. destruct fuel; simpl; unfold mbind, M_bind, bind, get; simpl; by case_match. Qed.

(** C3.  A run with a positive update budget raises [TypeError] when it
    enters the loop, at the call of [get_batches] with the keyword [flip]:
    no micro-batch is counted and the smoothed loss is never assigned, it
    still has its initial value 0. *)
Theorem run_loop_raises (fuel : nat) (m : net) (g : rng) :
  0 < max_updates →
  ∃ w, run_loop rank world_size max_updates batch_size update_every save_every
         train_set dev_set all_reduce (Datatypes.S fuel) m g
       = (inl TypeError, w)
       ∧ steps (vars w) = 0
       ∧ train_rml (vars w) = Some 0%float.
Proof.
  intros Hmax. unfold run_loop. rewrite loop_unfold. simpl.
  rewrite (proj2 (Z.ltb_lt _ _) Hmax). by eexists.
Qed.

(** C8.  Whatever the arguments and however long the loop is followed, a
    run completes no optimizer update and triggers no reduction, no
    evaluation and no checkpoint: its list of events stays empty. *)
Theorem run_loop_never_evaluates (fuel : nat) (m : net) (g : rng) :
  let w := (run_loop rank world_size max_updates batch_size update_every save_every
              train_set dev_set all_reduce fuel m g).2 in
  log w = [] ∧ updates (vars w) = 0.
Proof.
  unfold run_loop. rewrite loop_unfold. simpl.
  destruct (0 <? max_updates); [destruct fuel|]; done.
Qed.

End TrainFacts.

(** ** Collation *)

Section CollatorFacts.
Import Collator.

Lemma pad_sequence_Some seqs v :
  seqs ≠ [] →
  pad_sequence seqs v = Some (padded (max_list (length <$> seqs)) v <$> seqs).
Proof. by destruct seqs. Qed.

Lemma tensor_long_Some (ids : list Z) : Forall int64 ids → tensor_long ids = Some ids.
Proof.
  intros Hids. unfold tensor_long.
  assert (forallb (λ x, (- 2 ^ 63 <=? x) && (x <? 2 ^ 63)) ids = true) as ->; [|done].
  induction Hids as [|x ids [Hlo Hhi] _ IH]; [done|]. cbn [forallb].
  by rewrite IH, (proj2 (Z.leb_le _ _) Hlo), (proj2 (Z.ltb_lt _ _) Hhi).
Qed.

Lemma tensors_long (proj : PairSample → list Z) (samples : list PairSample) :
  Forall (λ pair, Forall int64 (proj pair)) samples →
  mapM (λ pair, tensor_long (proj pair)) samples = Some (proj <$> samples).
Proof.
  intros Hall. apply mapM_Some_2.
  induction Hall as [|pair samples Hpair _ IH]; constructor; [|done].
  by apply tensor_long_Some.
Qed.

Lemma tensor_long_None (ids : list Z) (x : Z) :
  x ∈ ids → ¬ int64 x → tensor_long ids = None.
Proof.
  intros Hin Hx. unfold tensor_long.
  destruct (forallb _ ids) eqn:Hall; [|done].
  destruct Hx. induction ids as [|y ids IH]; [by apply elem_of_nil in Hin|].
  cbn [forallb] in Hall. apply andb_prop in Hall as [Hy Hall].
  apply elem_of_cons in Hin as [-> | Hin]; [|by apply IH].
  apply andb_prop in Hy as [Hlo%Z.leb_le Hhi%Z.ltb_lt]. by split.
Qed.








End CollatorFacts.

(** ** Strings *)

Lemma chars_app s1 s2 : chars (s1 +:+ s2) = chars s1 ++ chars s2.
Proof. induction s1 as [|c s1 IH]; simpl; [done|]. unfold chars in *. simpl. by rewrite IH. Qed.

Lemma split_words s :
  Forall (λ w, w ≠ EmptyString ∧ Forall (λ c, Py.is_whitespace c = false) (chars w))
         (Py.split s).
Proof.
  induction s as [|c s IH]; simpl; [constructor|].
  destruct (Py.is_whitespace c) eqn:Hc; [done|].
  assert (Forall (λ c, Py.is_whitespace c = false) (chars (String c EmptyString))) as Hone
    by (by repeat constructor).
  destruct s as [|c' s']; [by repeat constructor|].
  destruct (Py.is_whitespace c') eqn:Hc'; [by constructor|].
  destruct (Py.split (String c' s')) as [|w ws]; [by repeat constructor|].
  apply Forall_cons_1 in IH as [[_ Hw] Hws].
  constructor; [|done]. split; [done|]. by constructor.
Qed.

Lemma rstrip_snoc ch s : Py.rstrip ch (s +:+ String ch EmptyString) = Py.rstrip ch s.
Proof.
  induction s as [|c s IH]; simpl.
  - by rewrite decide_True.
  - by rewrite IH.
Qed.

Lemma rstrip_absent ch s : ch ∉ chars s → Py.rstrip ch s = s.
Proof.
  induction s as [|c s IH]; simpl; [done|].
  unfold chars. simpl. intros [Hc Hs]%not_elem_of_cons.
  rewrite IH by done. destruct s; simpl; [|done].
  by case_decide; simplify_eq.
Qed.

Lemma split_on_head sep s rest :
  sep ∉ chars s → head (Py.split_on sep (s +:+ String sep rest)) = Some s.
Proof.
  induction s as [|c s IH]; simpl.
  - intros _. by rewrite decide_True.
  - unfold chars. simpl. intros [Hc Hs]%not_elem_of_cons.
    case_decide; [by simplify_eq|]. specialize (IH Hs).
    destruct (Py.split_on sep (s +:+ String sep rest)) as [|w ws]; [done|].
    simpl in *. by simplify_eq.
Qed.

Lemma readlines_line l rest :
  Py.newline ∉ chars l →
  Py.readlines (l +:+ String Py.newline rest)
  = (l +:+ String Py.newline EmptyString) :: Py.readlines rest.
Proof.
  induction l as [|c l IH]; simpl.
  - intros _. reflexivity.
  - unfold chars. simpl. intros [Hc Hl]%not_elem_of_cons.
    case_decide; [by simplify_eq|]. by rewrite IH.
Qed.

Lemma readlines_last l :
  Py.newline ∉ chars l → l ≠ EmptyString → Py.readlines l = [l].
Proof.
  induction l as [|c l IH]; simpl; [done|].
  unfold chars. simpl. intros [Hc Hl]%not_elem_of_cons _.
  case_decide; [by simplify_eq|].
  destruct l as [|c' l']; [done|]. by rewrite IH.
Qed.

Lemma key_of_line_snoc l :
  key_of_line (l +:+ String Py.newline EmptyString) = key_of_line l.
Proof. unfold key_of_line. by rewrite rstrip_snoc. Qed.

(** The lines read back from [join "\n" lines] have the keys of [lines]. *)
Lemma readlines_join_keys lines :
  Forall (λ l, l ≠ EmptyString ∧ Py.newline ∉ chars l) lines →
  key_of_line <$> Py.readlines (Py.join (String Py.newline EmptyString) lines)
  = key_of_line <$> lines.
Proof.
  induction 1 as [|l lines [Hne Hnl] Hlines IH]; [done|].
  destruct lines as [|l2 lines].
  - simpl. by rewrite readlines_last.
  - change (Py.join (String Py.newline EmptyString) (l :: l2 :: lines))
      with (l +:+ String Py.newline (Py.join (String Py.newline EmptyString) (l2 :: lines))).
    rewrite readlines_line by done. rewrite !fmap_cons, key_of_line_snoc.
    f_equal. exact IH.
Qed.

Lemma string_of_uint_chars d :
  Py.newline ∉ chars (DecimalString.NilEmpty.string_of_uint d).
Proof.
  induction d; unfold chars in *; simpl;
    [by intros []%elem_of_nil | apply not_elem_of_cons; split; [done|assumption]..].
Qed.

Lemma str_of_int_chars n : Py.newline ∉ chars (Py.str_of_int n).
Proof.
  unfold Py.str_of_int, DecimalString.NilZero.string_of_int,
    DecimalString.NilZero.string_of_uint.
  destruct (Z.to_int n) as [d|d].
  - destruct d; try apply string_of_uint_chars. unfold chars. simpl.
    apply not_elem_of_cons. split; [done|]. by intros []%elem_of_nil.
  - unfold chars. simpl. apply not_elem_of_cons. split; [done|].
    destruct d; try apply string_of_uint_chars. simpl.
    apply not_elem_of_cons. split; [done|]. by intros []%elem_of_nil.
Qed.

(** A word of a line holds neither a tab nor a newline. *)
Lemma word_chars w :
  Forall (λ c, Py.is_whitespace c = false) (chars w) →
  (Py.tab ∉ chars w) ∧ (Py.newline ∉ chars w).
Proof.
  intros Hw. rewrite Forall_forall in Hw.
  split; intros Hin%Hw; vm_compute in Hin; discriminate.
Qed.

Lemma vocab_line_ok (entry : string * Z) :
  Forall (λ c, Py.is_whitespace c = false) (chars entry.1) →
  (vocab_line entry ≠ EmptyString ∧ Py.newline ∉ chars (vocab_line entry))
  ∧ key_of_line (vocab_line entry) = Some entry.1.
Proof.
  intros [Htab Hnl]%word_chars. unfold vocab_line.
  assert (Py.newline ∉ chars (entry.1 +:+ String Py.tab (Py.str_of_int entry.2))) as Hline.
  { rewrite chars_app. apply not_elem_of_app. split; [done|].
    unfold chars. simpl. apply not_elem_of_cons. split; [done|]. apply str_of_int_chars. }
  split_and!; [|done|].
  - destruct entry as [v c]. by destruct v.
  - unfold key_of_line. rewrite rstrip_absent by done. by apply split_on_head.
Qed.

(** ** Assignment to a dictionary, [Counter] and comprehensions *)

Section AssocSetFacts.
Context {K V : Type} `{EqDecision K}.
Implicit Types (l : list (K * V)).

Lemma assoc_set_absent k v l : k ∉ l.*1 → Py.assoc_set k v l = l ++ [(k, v)].
Proof.
  induction l as [|[k' v'] l IH]; simpl; [done|].
  intros [Hk Hl]%not_elem_of_cons. case_decide; [done|]. by rewrite IH.
Qed.

Lemma assoc_set_keys k v l :
  (Py.assoc_set k v l).*1 = if decide (k ∈ l.*1) then l.*1 else l.*1 ++ [k].
Proof.
  induction l as [|[k' v'] l IH].
  - rewrite decide_False; [reflexivity|]. by intros []%elem_of_nil.
  - cbn [Py.assoc_set]. rewrite !fmap_cons. cbn [fst].
    destruct (decide (k = k')) as [->|Hk].
    + rewrite fmap_cons. cbn [fst]. rewrite decide_True by (by left). reflexivity.
    + rewrite fmap_cons, IH. cbn [fst]. destruct (decide (k ∈ l.*1)) as [Hin|Hin].
      * rewrite decide_True by (by right). reflexivity.
      * rewrite decide_False; [reflexivity|]. by intros [?|?]%elem_of_cons.
Qed.

Lemma assoc_set_lookup k v l k' :
  Py.assoc k' (Py.assoc_set k v l) = if decide (k' = k) then Some v else Py.assoc k' l.
Proof.
  induction l as [|[k0 v0] l IH]; simpl.
  - done.
  - destruct (decide (k = k0)) as [->|Hne]; simpl.
    + by repeat case_decide.
    + rewrite IH. repeat case_decide; simplify_eq; done.
Qed.

Lemma assoc_set_NoDup k v l : NoDup l.*1 → NoDup (Py.assoc_set k v l).*1.
Proof.
  intros Hnd. rewrite assoc_set_keys. case_decide; [done|].
  apply NoDup_app. split_and!; [done| |apply NoDup_singleton].
  intros k' Hk' ->%list_elem_of_singleton. done.
Qed.

Lemma dict_of_app (acc pairs : list (K * V)) :
  NoDup (acc ++ pairs).*1 →
  foldl (λ acc kv, Py.assoc_set kv.1 kv.2 acc) acc pairs = acc ++ pairs.
Proof.
  revert acc. induction pairs as [|[k v] pairs IH]; intros acc Hnd; simpl.
  - by rewrite app_nil_r.
  - rewrite assoc_set_absent.
    + rewrite IH; rewrite <- app_assoc; done.
    + rewrite fmap_app in Hnd. apply NoDup_app in Hnd as (_ & Hdisj & _).
      intros Hin. apply (Hdisj k Hin). simpl. by left.
Qed.

(** A comprehension over pairwise different keys is the list of its
    pairs. *)
Lemma dict_of_NoDup (pairs : list (K * V)) : NoDup pairs.*1 → Py.dict_of pairs = pairs.
Proof. intros Hnd. unfold Py.dict_of. by rewrite dict_of_app. Qed.
End AssocSetFacts.

Lemma Counter_fold (acc : list (string * Z)) (words : list string) :
  NoDup acc.*1 →
  let counter := foldl (λ acc k, Py.assoc_set k (default 0 (Py.assoc k acc) + 1) acc) acc words in
  NoDup counter.*1
  ∧ (∀ w, w ∈ counter.*1 ↔ w ∈ acc.*1 ∨ w ∈ words)
  ∧ (∀ w, default 0 (Py.assoc w counter) = default 0 (Py.assoc w acc) + occurrences w words).
Proof.
  revert acc. induction words as [|k words IH]; intros acc Hnd; simpl.
  - split_and!; [done| |].
    + intros w. split; [by left|]. intros [?|Hin]; [done|by apply elem_of_nil in Hin].
    + intros w. unfold occurrences. simpl. lia.
  - destruct (IH _ (assoc_set_NoDup k (default 0 (Py.assoc k acc) + 1) acc Hnd))
      as (Hnd' & Hkeys & Hcount).
    split_and!; [done| |].
    + intros w. rewrite Hkeys, assoc_set_keys, elem_of_cons.
      case_decide as Hin.
      * split; [intros [?|?]; auto|]. intros [?|[-> | ?]]; auto.
      * rewrite elem_of_app, list_elem_of_singleton. split; [intros [[? | ->]|?]; auto|].
        intros [?|[-> | ?]]; auto.
    + intros w. rewrite Hcount, assoc_set_lookup. unfold occurrences.
      rewrite filter_cons. case_decide as Hw; simpl.
      * subst. rewrite decide_True by done. simpl. lia.
      * rewrite decide_False by done. lia.
Qed.

(** [Counter]: one entry per distinct word, holding its number of
    occurrences. *)
Lemma Counter_spec (words : list string) :
  NoDup (Py.Counter words).*1
  ∧ (∀ w, w ∈ (Py.Counter words).*1 ↔ w ∈ words)
  ∧ (∀ w c, (w, c) ∈ Py.Counter words → c = occurrences w words).
Proof.
  destruct (Counter_fold [] words) as (Hnd & Hkeys & Hcount); [constructor|].
  split_and!; [done| |].
  - intros w. rewrite (Hkeys w). split; [|by right].
    intros [Hin|?]; [by apply elem_of_nil in Hin|done].
  - intros w c Hin. specialize (Hcount w).
    unfold Py.Counter. rewrite (assoc_NoDup w c _ Hnd Hin) in Hcount. simpl in Hcount. lia.
Qed.

(** ** Reading a vocabulary text *)

Lemma mapM_of_fmap {A B} (f : A → option B) (l : list A) (k : list B) :
  f <$> l = Some <$> k → mapM f l = Some k.
Proof.
  intros Heq. apply mapM_Some_2. revert k Heq.
  induction l as [|x l IH]; intros [|y k] Heq; simplify_eq/=; constructor; auto.
Qed.

Lemma mapM_to_fmap {A B} (f : A → option B) (l : list A) (k : list B) :
  mapM f l = Some k → f <$> l = Some <$> k.
Proof.
  intros Hall%mapM_Some. induction Hall as [|x y l k Hxy _ IH]; [done|].
  by rewrite !fmap_cons, Hxy, IH.
Qed.

Lemma mapM_enumerate (g : nat → nat) (lines keys : list string) :
  mapM key_of_line lines = Some keys →
  mapM (λ ik : nat * string, key ← key_of_line ik.2; Some (key, Z.of_nat ik.1))
       (imap (λ i k, (g i, k)) lines)
  = Some (imap (λ i key, (key, Z.of_nat (g i))) keys).
Proof.
  intros Hall%mapM_Some. apply mapM_Some_2. revert g.
  induction Hall as [|l key lines keys Hkey _ IH]; intros g; [constructor|].
  cbn [imap]. constructor.
  - simpl. by rewrite Hkey.
  - apply (IH (g ∘ S)).
Qed.

Lemma imap_keys (g : nat → Z) (keys : list string) :
  (imap (λ i key, (key, g i)) keys).*1 = keys.
Proof.
  revert g. induction keys as [|key keys IH]; intros g; [done|].
  cbn [imap]. rewrite fmap_cons. f_equal. apply (IH (g ∘ S)).
Qed.

(** With pairwise different keys, loading numbers the lines. *)
Lemma read_vocab_keys text keys :
  vocab_keys text = Some keys → NoDup keys →
  read_vocab text
  = Some (numbered keys).
Proof.
  intros Hkeys Hnd. unfold read_vocab, enumerate.
  pose proof (mapM_enumerate id _ keys Hkeys) as Hpairs.
  change (imap pair (Py.readlines text))
    with (imap (λ (i : nat) (k : string), (id i, k)) (Py.readlines text)).
  rewrite Hpairs. simpl.
  rewrite dict_of_NoDup; [done|]. by rewrite (imap_keys (λ i, Z.of_nat i)).
Qed.

Lemma corpus_words_ok files :
  Forall (λ w, w ≠ EmptyString ∧ Forall (λ c, Py.is_whitespace c = false) (chars w))
         (corpus_words files).
Proof.
  apply Forall_forall. intros w Hw. unfold corpus_words in Hw.
  apply list_elem_of_bind in Hw as (file & Hw & _).
  apply list_elem_of_bind in Hw as (line & Hw & _).
  pose proof (split_words line) as Hall. rewrite Forall_forall in Hall. by apply Hall.
Qed.

Lemma sorted_reverse_sorted {A} (key : A → Z) (l : list A) :
  StronglySorted (λ a b, key b ≤ key a) (Py.sorted_reverse key l).
Proof.
  pose proof (sorted_sorted (λ x, - key x) l) as Hs. unfold Py.sorted_reverse.
  induction Hs as [|x l' _ IH Hx]; constructor; [done|].
  eapply Forall_impl; [exact Hx|]. simpl. lia.
Qed.

(** The keys of the text that [write_vocab] produces. *)
Lemma write_vocab_keys (vocab : list (string * Z)) :
  Forall (λ w, Forall (λ c, Py.is_whitespace c = false) (chars w)) vocab.*1 →
  vocab_keys (write_vocab vocab)
  = Some (SOS :: EOS :: UNK :: (Py.sorted_reverse snd vocab).*1).
Proof.
  intros Hwords. unfold vocab_keys. apply mapM_of_fmap.
  set (ranked := Py.sorted_reverse snd vocab).
  set (rest := Py.join (String Py.newline EmptyString) (vocab_line <$> ranked)).
  change (write_vocab vocab)
    with (SOS +:+ String Py.newline (EOS +:+ String Py.newline
            (UNK +:+ String Py.newline rest))).
  rewrite !readlines_line by absent_char.
  rewrite !fmap_cons, !key_of_line_snoc. do 3 (apply (f_equal2 (@cons _)); [by vm_compute|]).
  assert (Forall (λ e : string * Z,
             Forall (λ c, Py.is_whitespace c = false) (chars e.1)) ranked) as Hranked.
  { apply Forall_forall. intros e He. rewrite Forall_forall in Hwords.
    apply Hwords, list_elem_of_fmap. exists e. split; [done|].
    unfold ranked, Py.sorted_reverse in He. by rewrite sorted_perm in He. }
  subst rest. rewrite readlines_join_keys.
  - rewrite <- !list_fmap_compose. apply list_fmap_ext. intros i e He. simpl.
    apply vocab_line_ok. rewrite Forall_forall in Hranked. apply Hranked.
    by eapply list_elem_of_lookup_2.
  - apply Forall_fmap, Forall_forall. intros e He. simpl.
    apply vocab_line_ok. rewrite Forall_forall in Hranked. by apply Hranked.
Qed.

(** X25.  For a corpus in which none of the three marker
    texts occurs as a word, building, writing and loading give the
    vocabulary in which the markers have the ids 0, 1 and 2 and the
    observed words follow with the ids 3, 4, ... in the order of the
    frequency table sorted stably by descending count; that order holds
    every distinct word once, with its number of occurrences, the counts
    never increasing. *)
Theorem vocabulary_determinism (files : list string) :
  (∀ w, w ∈ corpus_words files → w ∉ [SOS; EOS; UNK]) →
  let counter := build_vocab files in
  let ranked := Py.sorted_reverse snd counter in
  read_vocab (write_vocab counter)
  = Some (Py.Dict ((SOS, 0) :: (EOS, 1) :: (UNK, 2)
                   :: imap (λ i e, (e.1, Z.of_nat (3 + i))) ranked) (Some 2))
  ∧ ranked ≡ₚ counter
  ∧ StronglySorted (λ a b, b.2 ≤ a.2) ranked
  ∧ NoDup counter.*1
  ∧ (∀ w, w ∈ counter.*1 ↔ w ∈ corpus_words files)
  ∧ (∀ w c, (w, c) ∈ counter → c = occurrences w (corpus_words files)).
Proof.
  intros Hfree counter ranked.
  destruct (Counter_spec (corpus_words files)) as (Hnd & Hkeys & Hcount).
  fold (build_vocab files) in Hnd, Hkeys, Hcount. fold counter in Hnd, Hkeys, Hcount.
  assert (ranked ≡ₚ counter) as Hperm by apply sorted_perm.
  split_and!; [|done|apply sorted_reverse_sorted|done..].
  assert (Forall (λ w, Forall (λ c, Py.is_whitespace c = false) (chars w)) counter.*1)
    as Hwords.
  { apply Forall_forall. intros w Hw%Hkeys.
    pose proof (corpus_words_ok files) as Hok. rewrite Forall_forall in Hok.
    by apply Hok. }
  rewrite (read_vocab_keys _ _ (write_vocab_keys counter Hwords)).
  - fold ranked. unfold numbered. cbn [imap]. rewrite imap_fmap. reflexivity.
  - fold ranked.
    assert (∀ m, m ∈ [SOS; EOS; UNK] → m ∉ ranked.*1) as Hmarkers.
    { intros m Hm Hin. rewrite Hperm in Hin. apply Hkeys in Hin. by apply (Hfree m). }
    repeat (apply NoDup_cons; split).
    + intros [Heq|[Heq|Hin]%elem_of_cons]%elem_of_cons; [done..|].
      apply (Hmarkers SOS); [by left|done].
    + intros [Heq|Hin]%elem_of_cons; [done|].
      apply (Hmarkers EOS); [by right; left|done].
    + apply (Hmarkers UNK). by right; right; left.
    + by rewrite Hperm.
Qed.

(** ** The round trip through [vectorize] and [devectorize] *)

Lemma getitems_present {K V} `{EqDecision K} (d : Py.dict K V) (f : K → V) (keys : list K) :
  Forall (λ k, Py.assoc k (Py.items d) = Some (f k)) keys →
  getitems d keys = Some (f <$> keys, d).
Proof.
  induction 1 as [|k keys Hk _ IH]; simpl; [done|].
  unfold Py.getitem. rewrite Hk. simpl. by rewrite IH.
Qed.

Lemma takewhile_stop {A} (p : A → bool) (l : list A) (x : A) :
  Forall (λ y, p y = true) l → p x = false → Py.takewhile p (l ++ [x]) = l.
Proof.
  intros Hl Hx. induction Hl as [|y l Hy _ IH]; simpl.
  - by rewrite Hx.
  - by rewrite Hy, IH.
Qed.

Lemma imap_ids (l : list string) (n : nat) :
  (imap (λ i key, (Z.of_nat (n + i), key)) l).*1 = Z.of_nat <$> seq n (length l).
Proof.
  revert n. induction l as [|x l IH]; intros n; [done|].
  cbn [imap length seq]. rewrite !fmap_cons. cbn [fst]. f_equal; [f_equal; lia|].
  rewrite <- (IH (S n)). f_equal. apply imap_ext. intros i y _. simpl. do 2 f_equal. lia.
Qed.

Lemma numbered_ids_NoDup (keys : list string) :
  NoDup (imap (λ i key, (Z.of_nat i, key)) keys).*1.
Proof.
  pose proof (imap_ids keys 0%nat) as Hids. cbn [Nat.add] in Hids. rewrite Hids.
  apply NoDup_fmap; [apply _|apply NoDup_seq].
Qed.

Section RoundTrip.
Context (keys : list string) (Hnd : NoDup keys).

Lemma numbered_keys : (Py.items (numbered keys)).*1 = keys.
Proof. simpl. by rewrite (imap_keys (λ i, Z.of_nat i)). Qed.

Lemma numbered_lookup i w :
  keys !! i = Some w → Py.assoc w (Py.items (numbered keys)) = Some (Z.of_nat i).
Proof using Hnd.
  intros Hi. apply assoc_NoDup.
  - by rewrite numbered_keys.
  - simpl. eapply list_elem_of_lookup_2. by rewrite list_lookup_imap, Hi.
Qed.

Lemma reverse_items :
  Py.items (reverse_mapping (numbered keys)) = imap (λ i key, (Z.of_nat i, key)) keys.
Proof.
  unfold reverse_mapping. cbn [Py.items].
  assert ((λ kv : string * Z, (kv.2, kv.1)) <$> Py.items (numbered keys)
          = imap (λ i key, (Z.of_nat i, key)) keys) as ->.
  { simpl. rewrite fmap_imap. by apply imap_ext. }
  apply dict_of_NoDup, numbered_ids_NoDup.
Qed.

Lemma reverse_lookup i w :
  keys !! i = Some w →
  Py.assoc (Z.of_nat i) (Py.items (reverse_mapping (numbered keys))) = Some w.
Proof.
  intros Hi. rewrite reverse_items. apply assoc_NoDup; [apply numbered_ids_NoDup|].
  eapply list_elem_of_lookup_2. by rewrite list_lookup_imap, Hi.
Qed.
End RoundTrip.

Lemma token_subword (keys : list string) (w : string) :
  NoDup keys → keys !! 2%nat = Some UNK →
  Py.assoc (token_id (numbered keys) w) (Py.items (reverse_mapping (numbered keys)))
  = Some (known_or_unk (numbered keys) w).
Proof.
  intros Hnd Hunk. unfold token_id, known_or_unk. rewrite numbered_keys.
  case_decide as Hw.
  - apply list_elem_of_lookup_1 in Hw as [i Hi].
    rewrite (numbered_lookup keys Hnd i w Hi). simpl. by apply reverse_lookup.
  - assert (Py.assoc w (Py.items (numbered keys)) = None) as ->
      by (apply assoc_None; by rewrite numbered_keys).
    simpl. by apply (reverse_lookup keys 2).
Qed.

(** C5 (as amended).  For a well-formed vocabulary text and a line none
    of whose words is the end marker, vectorizing with wrapping and
    devectorizing with unwrapping through the reverse mapping of the
    loaded vocabulary gives the words of the line joined by single spaces,
    each word that the vocabulary lacks replaced by the unknown-token
    text. *)
Theorem round_trip (text line : string) :
  well_formed text → EOS ∉ Py.split line →
  ∃ vocab ids vocab' ivocab',
    read_vocab text = Some vocab
    ∧ vectorize line vocab true = Some (ids, vocab')
    ∧ devectorize ids (reverse_mapping vocab) true
      = Some (Py.join (String Py.space EmptyString) (known_or_unk vocab <$> Py.split line),
              ivocab').
Proof.
  intros (rest & Hkeys & Hnd) Heos.
  set (keys := SOS :: EOS :: UNK :: rest) in *.
  set (vocab := numbered keys).
  destruct (vectorize_default vocab line true eq_refl) as (vocab' & Hvec & _).
  exists vocab, (token_ids vocab line true), vocab', (reverse_mapping vocab).
  split_and!; [by apply read_vocab_keys|done|].
  unfold devectorize.
  rewrite (getitems_present _ (λ id, default EmptyString
             (Py.assoc id (Py.items (reverse_mapping vocab))))).
  - cbn [mbind option_bind]. unfold token_ids. rewrite fmap_cons, fmap_app, <- list_fmap_compose.
    cbn [drop]. do 3 f_equal.
    assert (∀ w, default EmptyString
                   (Py.assoc (token_id vocab w) (Py.items (reverse_mapping vocab)))
                 = known_or_unk vocab w) as Hsub.
    { intros w. unfold vocab. by rewrite token_subword. }
    rewrite (list_fmap_ext _ (known_or_unk vocab) (Py.split line))
      by (intros i w _; apply Hsub).
    rewrite fmap_cons, Hsub, fmap_nil.
    apply takewhile_stop.
    + apply Forall_fmap, Forall_forall. intros w Hw. simpl.
      apply bool_decide_eq_true_2. unfold known_or_unk.
      case_decide; [by intros ->|done].
    + apply bool_decide_eq_false_2. intros Hne. apply Hne.
      unfold known_or_unk. rewrite decide_True; [done|].
      unfold vocab. rewrite numbered_keys. unfold keys. by right; left.
  - apply Forall_forall. intros id Hid. unfold token_ids in Hid.
    assert (∃ w, id = token_id vocab w) as [w ->].
    { apply elem_of_cons in Hid as [->|Hid]; [by eexists|].
      apply elem_of_app in Hid as [(w & -> & _)%list_elem_of_fmap|Hid]; [by eexists|].
      apply list_elem_of_singleton in Hid as ->. by eexists. }
    unfold vocab. by rewrite token_subword.
Qed.

(** ** Concrete runs *)

(** The scenario of a five-entry dataset and two ranks: rank 0 holds the
    sorted positions 0, 2, 4 and rank 1 the positions 1, 3. *)
Example split_ds_scenario :
  let dataset := [([1;2;3],[4;5]); ([1],[]); ([1;2],[3;4]); ([1],[2]); ([1;2],[3])] in
  shard_of dataset 2 0 = Some [([1],[]); ([1;2],[3]); ([1;2;3],[4;5])]
  ∧ shard_of dataset 2 1 = Some [([1],[2]); ([1;2],[3;4])]
  ∧ Py.sorted pair_len dataset
    = [([1],[]); ([1],[2]); ([1;2],[3]); ([1;2],[3;4]); ([1;2;3],[4;5])].
Proof. by vm_compute. Qed.

Lemma get_batches_budget_witness :
  ∃ out g',
    Dataloader.get_batches (S := sample_in_order)
      [([1;2],[3]); ([1],[2;3]); ([1;2;3;4],[5;6;7]); ([1],[2])] 6 tt = Some (out, g')
    ∧ (∀ b, b ∈ out → b ≠ [] ∨ 0 ≤ 6 → within_budget 6 b)
    ∧ (∀ b e, b ∈ out → e ∈ b → 6 < pair_len e → b = [e])
    ∧ (∀ e, e ∈ [([1;2],[3]); ([1],[2;3]); ([1;2;3;4],[5;6;7]); ([1],[2])] →
         ∃ b, b ∈ out ∧ e ∈ b).
Proof. apply get_batches_budget. Defined.

Lemma split_ds_partition_witness :
  0 ≤ 1 < 2
  ∧ shard_of [([1;2;3],[4;5]); ([1],[]); ([1;2],[3;4]); ([1],[2]); ([1;2],[3])] 2 1
    = Some (congruent_positions
              [([1;2;3],[4;5]); ([1],[]); ([1;2],[3;4]); ([1],[2]); ([1;2],[3])] 2 1).
Proof.
  split; [lia|].
  apply (split_ds_partition
           [([1;2;3],[4;5]); ([1],[]); ([1;2],[3;4]); ([1],[2]); ([1;2],[3])] 2 1).
  lia.
Defined.



Lemma run_loop_raises_witness :
  0 < 15000
  ∧ ∃ w, Train.run_loop (S := sample_in_order) (N := Train.constant_loss)
           0 1 15000 8000 40 500 [([0;3;1],[0;4;1])] [([0;3;1],[0;4;1])] (λ x, x) 1 tt tt
         = (inl Train.TypeError, w)
         ∧ Train.steps (Train.vars w) = 0
         ∧ Train.train_rml (Train.vars w) = Some 0%float.
Proof.
  split; [lia|].
  apply (run_loop_raises (S := sample_in_order) (N := Train.constant_loss)
           0 1 15000 8000 40 500 [([0;3;1],[0;4;1])] [([0;3;1],[0;4;1])] (λ x, x) 0 tt tt).
  lia.
Defined.

(** The vocabulary text written for the one-line corpus [a b a]. *)
Example write_vocab_example :
  write_vocab (build_vocab ["a b a"])
  = "<SOS>" +:+ String Py.newline ("<EOS>" +:+ String Py.newline ("<UNK>" +:+ String Py.newline
      ("a" +:+ String Py.tab ("2" +:+ String Py.newline ("b" +:+ String Py.tab "1"))))).
Proof. by vm_compute. Qed.

(** C6.  The claim fails on the code for a corpus that holds a marker
    text as a word: for the corpus [<SOS> a a] the loaded vocabulary
    gives the start marker the id 4, the id of its later line, and no
    token the id 0. *)
Lemma vocabulary_marker_in_corpus :
  read_vocab (write_vocab (build_vocab ["<SOS> a a"]))
  = Some (Py.Dict [(SOS, 4); (EOS, 1); (UNK, 2); ("a"%string, 3)] (Some 2)).
Proof. by vm_compute. Qed.

Lemma vocabulary_determinism_witness :
  (∀ w, w ∈ corpus_words ["b a b"; "c b a"] → w ∉ [SOS; EOS; UNK])
  ∧ read_vocab (write_vocab (build_vocab ["b a b"; "c b a"]))
    = Some (Py.Dict [(SOS, 0); (EOS, 1); (UNK, 2);
                     ("b"%string, 3); ("a"%string, 4); ("c"%string, 5)] (Some 2)).
Proof.
  assert (∀ w, w ∈ corpus_words ["b a b"; "c b a"] → w ∉ [SOS; EOS; UNK]) as Hfree.
  { intros w Hw Hm. vm_compute in Hw.
    repeat (apply elem_of_cons in Hw as [->|Hw];
            [repeat (apply elem_of_cons in Hm as [Hm|Hm]; [discriminate Hm|]);
             by apply elem_of_nil in Hm|]).
    by apply elem_of_nil in Hw. }
  split; [exact Hfree|].
  destruct (vocabulary_determinism ["b a b"; "c b a"] Hfree) as [Hread _].
  rewrite Hread. by vm_compute.
Defined.

(** C5, as the claim states it, fails for a line that holds the end
    marker as a word: the round trip of [a <EOS> b] through the
    vocabulary of the corpus [a b a] stops at the marker and returns [a],
    although all three words are in the vocabulary.  It also fails for a
    loaded vocabulary that is not well formed: the text written for the
    corpus [<UNK> a] holds the unknown marker twice, the loaded
    vocabulary gives no token the id 2, and devectorizing the ids of the
    line [zz] raises. *)
Lemma round_trip_fails :
  (∃ vocab ids vocab' ivocab',
     read_vocab (write_vocab (build_vocab ["a b a"])) = Some vocab
     ∧ vectorize "a <EOS> b" vocab true = Some (ids, vocab')
     ∧ devectorize ids (reverse_mapping vocab) true = Some ("a"%string, ivocab')
     ∧ Py.join (String Py.space EmptyString) (known_or_unk vocab <$> Py.split "a <EOS> b")
       = "a <EOS> b"%string)
  ∧ (∃ vocab ids vocab',
       read_vocab (write_vocab (build_vocab ["<UNK> a"])) = Some vocab
       ∧ vectorize "zz" vocab true = Some (ids, vocab')
       ∧ devectorize ids (reverse_mapping vocab) true = None).
Proof.
  split.
  - do 4 eexists. split_and!; by vm_compute.
  - do 3 eexists. split_and!; by vm_compute.
Qed.

Lemma round_trip_witness :
  well_formed (write_vocab (build_vocab ["a b a"]))
  ∧ (EOS ∉ Py.split "b zz a")
  ∧ ∃ vocab ids vocab' ivocab',
      read_vocab (write_vocab (build_vocab ["a b a"])) = Some vocab
      ∧ vectorize "b zz a" vocab true = Some (ids, vocab')
      ∧ devectorize ids (reverse_mapping vocab) true
        = Some (Py.join (String Py.space EmptyString) (known_or_unk vocab <$> Py.split "b zz a"),
                ivocab').
Proof.
  assert (well_formed (write_vocab (build_vocab ["a b a"]))) as Hwf.
  { exists ["a"%string; "b"%string]. split; [by vm_compute|].
    apply (bool_decide_unpack _). by vm_compute. }
  assert (EOS ∉ Py.split "b zz a") as Heos.
  { apply (bool_decide_unpack _). by vm_compute. }
  split_and!; [done..|]. by apply round_trip.
Defined.

(** * Further properties of the code *)

(** ** More on [split_ds] *)

Lemma stride_subset {A} skip step (l : list A) x :
  x ∈ Py.stride skip step l → x ∈ l.
Proof.
  revert skip. induction l as [|y l IH]; intros skip; simpl; [done|].
  destruct skip as [|k].
  - intros [->|Hin]%elem_of_cons; [by left|]. right. by eapply IH.
  - intros Hin. right. by eapply IH.
Qed.

Lemma stride_sorted {A} (R : A → A → Prop) skip step (l : list A) :
  StronglySorted R l → StronglySorted R (Py.stride skip step l).
Proof.
  intros Hs. revert skip. induction Hs as [|y l _ IH Hy]; intros skip; simpl; [constructor|].
  destruct skip as [|k]; [|apply IH].
  constructor; [apply IH|].
  apply Forall_forall. intros x Hx%stride_subset.
  rewrite Forall_forall in Hy. by apply Hy.
Qed.

Lemma stride_length {A} skip step (l : list A) :
  (skip ≤ step)%nat →
  length (Py.stride skip step l) = ((length l + step - skip) / S step)%nat.
Proof.
  revert skip. induction l as [|x l IH]; intros skip Hskip; cbn [Py.stride length].
  - symmetry. apply Nat.div_small. lia.
  - destruct skip as [|k]; cbn [length].
    + rewrite IH by lia.
      replace (S (length l) + step - 0)%nat with (length l + step - step + 1 * S step)%nat by lia.
      rewrite Nat.div_add by lia. lia.
    + rewrite IH by lia. reflexivity.
Qed.

Lemma sorted_length {A} (key : A → Z) (l : list A) : length (Py.sorted key l) = length l.
Proof. by rewrite sorted_perm. Qed.

(** X1.  Every shard is itself in ascending order of source length plus
    target length. *)
Theorem split_ds_sorted (entries : list PairSample) (world_size rank : Z) :
  0 ≤ rank < world_size →
  ∃ shard, shard_of entries world_size rank = Some shard
           ∧ StronglySorted (λ a b, pair_len a ≤ pair_len b) shard.
Proof.
  intros Hr. eexists. split; [by apply shard_of_stride|].
  apply stride_sorted, sorted_sorted.
Qed.

(** X2.  The shards are balanced: the shard of rank [r] holds
    [ceil((n - r) / W)] of the [n] entries, so two shards differ in size
    by at most one, a lower rank never holding fewer. *)
Theorem split_ds_balanced (entries : list PairSample) (world_size rank : Z) :
  0 ≤ rank < world_size →
  ∃ shard, shard_of entries world_size rank = Some shard
           ∧ Z.of_nat (length shard)
             = (Z.of_nat (length entries) - rank + world_size - 1) / world_size
           ∧ ∀ rank' shard', rank ≤ rank' < world_size →
               shard_of entries world_size rank' = Some shard' →
               (length shard' ≤ length shard ≤ length shard' + 1)%nat.
Proof.
  intros Hr.
  assert (∀ r, 0 ≤ r < world_size →
            ∃ shard, shard_of entries world_size r = Some shard
              ∧ Z.of_nat (length shard)
                = (Z.of_nat (length entries) - r + world_size - 1) / world_size) as Hlen.
  { intros r Hr'. eexists. split; [by apply shard_of_stride|].
    rewrite stride_length, sorted_length by lia.
    rewrite Nat2Z.inj_div. f_equal; lia. }
  destruct (Hlen rank Hr) as (shard & Hshard & Hsize).
  exists shard. split_and!; [done..|].
  intros rank' shard' Hr' Hshard'.
  destruct (Hlen rank' ltac:(lia)) as (shard2 & Hshard2 & Hsize2).
  assert (shard2 = shard') as -> by congruence.
  set (n := Z.of_nat (length entries)) in *.
  assert ((n - rank' + world_size - 1) / world_size
          ≤ (n - rank + world_size - 1) / world_size) by (apply Z.div_le_mono; lia).
  assert ((n - rank + world_size - 1) / world_size
          ≤ (n - rank' + world_size - 1 + 1 * world_size) / world_size)
    by (apply Z.div_le_mono; lia).
  rewrite Z.div_add in * by lia. lia.
Qed.

(** X3.  [split_ds] raises exactly when the world size is 0 (the slice
    step); for every other world size and every rank, also a negative
    one, it returns a list of entries of the dataset. *)
Theorem split_ds_raises_iff (entries : list PairSample) (world_size rank : Z) :
  (shard_of entries world_size rank = None ↔ world_size = 0)
  ∧ ∀ shard e, shard_of entries world_size rank = Some shard → e ∈ shard → e ∈ entries.
Proof.
  rewrite shard_of_slice. unfold Py.slice_from_step. split.
  - destruct (Z.eqb_spec world_size 0); [done|].
    split; [|done]. repeat case_match; done.
  - intros shard e Hshard He.
    assert (e ∈ Py.sorted pair_len entries) as Hin.
    { repeat case_match; simplify_eq;
        try (by apply elem_of_nil in He);
        apply stride_subset in He; try done.
      all: rewrite elem_of_reverse in He; apply elem_of_take in He as (i & Hi & _);
        by eapply list_elem_of_lookup_2. }
    by rewrite sorted_perm in Hin.
Qed.

(** ** More on [get_batches] *)

Lemma batch_tokens_append (b1 b2 : list PairSample) :
  batch_tokens (b1 ++ b2) = batch_tokens b1 + batch_tokens b2.
Proof. induction b1 as [|e b1 IH]; simpl; lia. Qed.

Lemma batch_tokens_perm (b1 b2 : list PairSample) :
  b1 ≡ₚ b2 → batch_tokens b1 = batch_tokens b2.
Proof. induction 1; simpl; lia. Qed.

Lemma entries_at_range (pre l : list PairSample) :
  entries_at (pre ++ l) (seq (length pre) (length l)) = l.
Proof.
  revert pre. induction l as [|x l IH]; intros pre; [done|].
  cbn [length seq]. unfold entries_at. cbn [omap list_omap].
  rewrite (list_lookup_middle pre l x (length pre) eq_refl). f_equal.
  specialize (IH (pre ++ [x])). rewrite length_app, <- app_assoc in IH. simpl in IH.
  by rewrite Nat.add_1_r in IH.
Qed.

Lemma entries_at_all (ds : list PairSample) : entries_at ds (seq 0 (length ds)) = ds.
Proof. apply (entries_at_range [] ds). Qed.

Lemma elem_of_concat {A} (x : A) (ls : list (list A)) :
  x ∈ concat ls → ∃ l, x ∈ l ∧ l ∈ ls.
Proof.
  induction ls as [|l ls IH]; simpl; [by intros ?%elem_of_nil|].
  intros [Hin|Hin]%elem_of_app.
  - exists l. split; [done|by left].
  - destruct (IH Hin) as (l' & ? & ?). exists l'. split; [done|by right].
Qed.

Section BatcherMore.
Context {rng : Type} {S : Sampler rng}.
Import Dataloader.

(** As [get_batches_run], with the order of the indices named. *)
Lemma get_batches_trace (ds : list PairSample) (batch_size : Z) (g : rng) :
  ∃ st refs out g',
    pack_loop ds (token_counts ds) batch_size pack_init (indices (token_counts ds) g).1 = Some st
    ∧ refs ≡ₚ batches st
    ∧ Forall2 (λ r b, heap st !! r = Some b) refs out
    ∧ get_batches ds batch_size g = Some (out, g').
Proof.
  unfold get_batches.
  pose proof (indices_perm (token_counts ds) g) as Hperm.
  destruct (indices (token_counts ds) g) as [idxs g1]. simpl in *.
  assert (length (token_counts ds) = length ds) as Hlen
    by (unfold token_counts; by rewrite length_fmap).
  rewrite Hlen in Hperm.
  assert (Forall (λ idx, idx < length ds)%nat idxs) as Hidx.
  { rewrite Hperm. apply Forall_seq. lia. }
  destruct (pack_loop_total ds batch_size idxs pack_init Hidx) as [st Hst].
  rewrite Hst. simpl.
  pose proof (pack_loop_inv _ _ _ _ _ (pack_init_inv batch_size) Hst) as Hinv.
  pose proof (shuffle_perm _ (batches st) g1) as Hrefs.
  destruct (shuffle (batches st) g1) as [refs g2]. simpl in Hrefs.
  assert (is_Some (mapM (λ ref, heap st !! ref) refs)) as [out Hout].
  { apply mapM_is_Some. rewrite Hrefs.
    destruct Hinv as (_ & _ & Hlive).
    eapply Forall_impl; [exact Hlive|]. intros r Hr. by apply lookup_lt_is_Some_2. }
  rewrite Hout. simpl. exists st, refs, out, g2.
  split_and!; try done. by apply mapM_Some.
Qed.

Lemma pack_step_heap ds bs st idx st' :
  pack_step ds (token_counts ds) bs st idx = Some st' →
  ∃ item, ds !! idx = Some item
    ∧ (heap st' = heap st ++ [[item]]
       ∨ heap st' = alter (λ b, b ++ [item]) (batch st) (heap st)).
Proof.
  unfold pack_step.
  destruct (place ds (token_counts ds) bs st idx) as [st1|] eqn:Hpl; simpl; [|done].
  intros [= <-]. apply place_Some in Hpl as (item & Hitem & ->).
  exists item. split; [done|]. rewrite (proj2 (emit_batches _)).
  destruct (_ >? _); simpl; auto.
Qed.

(** An invariant [P] of the batch objects, relative to the indices still
    to come, that holds for the empty batch and is kept when the entry of
    the next index is appended holds for all batch objects at the end of
    the loop; [Q] is what is known of the indices still to come. *)
Lemma pack_loop_heap_inv (Q : list nat → Prop) (P : list nat → list PairSample → Prop)
    ds bs idxs st st' :
  (∀ idx idxs', Q (idx :: idxs') → Q idxs') →
  (∀ idx idxs' item b, Q (idx :: idxs') → ds !! idx = Some item →
     P (idx :: idxs') b → P idxs' (b ++ [item])) →
  (∀ idx idxs' b, P (idx :: idxs') b → P idxs' b) →
  (∀ idxs', P idxs' []) →
  Q idxs →
  Forall (P idxs) (heap st) →
  pack_loop ds (token_counts ds) bs st idxs = Some st' →
  Forall (P []) (heap st').
Proof.
  intros HQ Happ Hdrop Hnil. revert st.
  induction idxs as [|idx idxs IH]; intros st Hsorted Hheap; simpl.
  - by intros [= <-].
  - destruct (pack_step ds (token_counts ds) bs st idx) as [st1|] eqn:Hstep; simpl; [|done].
    apply IH; [by eapply HQ|].
    apply pack_step_heap in Hstep as (item & Hitem & [-> | ->]).
    + apply Forall_app. split.
      * eapply Forall_impl; [exact Hheap|]. intros b. apply Hdrop.
      * apply Forall_singleton. apply (Happ idx idxs item []); [done..|apply Hnil].
    + apply Forall_alter.
      * eapply Forall_impl; [exact Hheap|]. intros b. apply Hdrop.
      * intros b Hb _. apply (Happ idx); [done..|].
        rewrite Forall_lookup in Hheap. by eapply Hheap.
Qed.

Lemma groupby_constant {A} (key : A → Z) (l : list A) :
  Forall (λ grp, ∀ x y, x ∈ grp → y ∈ grp → key x = key y) (Py.groupby key l).
Proof.
  induction l as [|x l IH]; simpl; [constructor|].
  destruct (Py.groupby key l) as [|[|y grp] gs].
  - constructor; [|done]. by intros a b ->%list_elem_of_singleton ->%list_elem_of_singleton.
  - constructor; [|done]. by intros a b ->%list_elem_of_singleton ->%list_elem_of_singleton.
  - apply Forall_cons_1 in IH as [Hgrp Hgs].
    destruct (Z.eqb_spec (key x) (key y)) as [Hxy|Hxy].
    + constructor; [|done].
      assert (∀ a, a ∈ x :: y :: grp → key a = key y) as Hall.
      { intros a [->|Ha]%elem_of_cons; [done|]. apply Hgrp; [done|by left]. }
      intros a b Ha Hb. by rewrite (Hall a Ha), (Hall b Hb).
    + constructor; [|by constructor].
      by intros a b ->%list_elem_of_singleton ->%list_elem_of_singleton.
Qed.

Lemma shuffle_groups_sorted (key : nat → Z) (groups : list (list nat)) (g : rng) :
  Forall (λ grp, ∀ x y, x ∈ grp → y ∈ grp → key x = key y) groups →
  StronglySorted (λ i j, key i ≤ key j) (concat groups) →
  StronglySorted (λ i j, key i ≤ key j) (shuffle_groups groups g).1.
Proof.
  intros Hconst. revert g.
  induction Hconst as [|vs groups Hvs _ IH]; intros g Hsorted; simpl; [constructor|].
  pose proof (shuffle_perm _ vs g) as Hperm.
  destruct (shuffle vs g) as [vs' g1]. simpl in Hperm.
  pose proof (shuffle_groups_perm groups g1) as Hrest.
  specialize (IH g1). destruct (shuffle_groups groups g1) as [rest g2]. simpl in *.
  apply StronglySorted_app in Hsorted as (Hcross & _ & Htail).
  apply StronglySorted_app_2.
  - intros i j Hi Hj. rewrite Hperm in Hi. rewrite Hrest in Hj. by apply Hcross.
  - assert (∀ i j, i ∈ vs' → j ∈ vs' → key i ≤ key j) as Heq.
    { intros i j Hi Hj. rewrite Hperm in Hi, Hj. rewrite (Hvs i j Hi Hj). lia. }
    clear Hperm. induction vs' as [|i vs' IHvs]; constructor.
    + apply IHvs. intros a b Ha Hb. apply Heq; by right.
    + apply Forall_forall. intros j Hj. apply Heq; [by left|by right].
  - by apply IH.
Qed.

(** The loop takes the indices in ascending order of token count. *)
Lemma indices_sorted (counts : list Z) (g : rng) :
  StronglySorted (λ i j, count_key counts i ≤ count_key counts j) (indices counts g).1.
Proof.
  unfold indices. apply shuffle_groups_sorted; [apply groupby_constant|].
  rewrite groupby_concat. apply sorted_sorted.
Qed.

Lemma count_key_entry (ds : list PairSample) idx item :
  ds !! idx = Some item → count_key (token_counts ds) idx = pair_len item.
Proof. intros Hi. unfold count_key, token_counts. by rewrite list_lookup_fmap, Hi. Qed.

(** X9.  Every batch that [get_batches] yields holds only entries of the
    shard, in ascending order of token count. *)
Theorem get_batches_ascending (ds : list PairSample) (batch_size : Z) (g : rng) :
  ∃ out g',
    get_batches ds batch_size g = Some (out, g')
    ∧ ∀ b, b ∈ out →
        (∀ e, e ∈ b → e ∈ ds)
        ∧ StronglySorted (λ a c, pair_len a ≤ pair_len c) b.
Proof.
  destruct (get_batches_trace ds batch_size g) as (st & refs & out & g' & Hst & _ & Hout & Hget).
  exists out, g'. split; [done|].
  set (key := count_key (token_counts ds)).
  pose proof (pack_loop_heap_inv
    (StronglySorted (λ i j, key i ≤ key j))
    (λ idxs b, (∀ e, e ∈ b → e ∈ ds)
               ∧ StronglySorted (λ a c, pair_len a ≤ pair_len c) b
               ∧ ∀ e i, e ∈ b → i ∈ idxs → pair_len e ≤ key i)
    ds batch_size (indices (token_counts ds) g).1 pack_init st) as Hinv.
  assert (Forall (λ b, (∀ e, e ∈ b → e ∈ ds)
                       ∧ StronglySorted (λ a c, pair_len a ≤ pair_len c) b
                       ∧ ∀ e i, e ∈ b → i ∈ [] → pair_len e ≤ key i) (heap st)) as Hheap.
  { eapply Hinv; [..|exact Hst].
    - intros idx idxs' Hs. by apply StronglySorted_inv in Hs as [? _].
    - intros idx idxs' item b Hs Hitem (Hsub & Hb & Hbound).
      apply StronglySorted_inv in Hs as [_ Hidx]. rewrite Forall_forall in Hidx.
      pose proof (count_key_entry ds idx item Hitem) as Hkey. fold key in Hkey.
      split_and!.
      + intros e [He| ->%list_elem_of_singleton]%elem_of_app; [by apply Hsub|].
        by eapply list_elem_of_lookup_2.
      + apply StronglySorted_app_2; [|done|repeat constructor].
        intros a c Ha ->%list_elem_of_singleton. rewrite <- Hkey. apply Hbound; [done|by left].
      + intros e i [He| ->%list_elem_of_singleton]%elem_of_app Hi.
        * apply Hbound; [done|by right].
        * rewrite <- Hkey. by apply Hidx.
    - intros idx idxs' b (Hsub & Hb & Hbound). split_and!; [done..|].
      intros e i He Hi. apply Hbound; [done|by right].
    - intros idxs'. split_and!;
        [by intros e ?%elem_of_nil|constructor|by intros e i ?%elem_of_nil].
    - apply indices_sorted.
    - apply Forall_singleton. split_and!;
        [by intros e ?%elem_of_nil|constructor|by intros e i ?%elem_of_nil]. }
  intros b (i & Hi)%list_elem_of_lookup_1.
  destruct (Forall2_lookup_r _ _ _ _ _ Hout Hi) as (r & _ & Hrb).
  rewrite Forall_lookup in Hheap. destruct (Hheap r b Hrb) as (Hsub & Hb & _). done.
Qed.

Lemma pack_loop_fits ds bs idxs cur k :
  batch_tokens cur + batch_tokens (entries_at ds idxs) ≤ bs →
  Forall (λ idx, idx < length ds)%nat idxs →
  pack_loop ds (token_counts ds) bs
    {| heap := [cur]; batches := replicate k 0%nat;
       num_tokens := batch_tokens cur; batch := 0 |} idxs
  = Some {| heap := [cur ++ entries_at ds idxs];
            batches := replicate (k + length idxs) 0%nat;
            num_tokens := batch_tokens (cur ++ entries_at ds idxs); batch := 0 |}.
Proof.
  intros Hfit Hidx. revert cur k Hfit.
  induction Hidx as [|idx idxs Hlt _ IH]; intros cur k Hfit.
  - simpl. unfold entries_at. simpl. by rewrite app_nil_r, Nat.add_0_r.
  - destruct (lookup_lt_is_Some_2 ds idx Hlt) as [item Hitem].
    assert (entries_at ds (idx :: idxs) = item :: entries_at ds idxs) as Hent
      by (unfold entries_at; cbn [omap list_omap]; by rewrite Hitem).
    rewrite Hent in *. cbn [batch_tokens foldr] in Hfit. fold (batch_tokens (entries_at ds idxs)) in Hfit.
    pose proof (batch_tokens_nonneg (entries_at ds idxs)) as Hnn.
    cbn [pack_loop]. unfold pack_step, place.
    assert (token_counts ds !! idx = Some (pair_len item)) as ->
      by (unfold token_counts; by rewrite list_lookup_fmap, Hitem).
    rewrite Hitem. simpl.
    destruct (Z.gtb_spec (batch_tokens cur + pair_len item) bs) as [Hgt|_]; [lia|].
    unfold emit, truthy. simpl.
    assert (cur ++ [item] ≠ []) as Hne by (by destruct cur).
    destruct (cur ++ [item]) as [|e b'] eqn:Hcur; [done|]. simpl. rewrite <- Hcur.
    specialize (IH (cur ++ [item]) (Datatypes.S k)).
    rewrite batch_tokens_app in IH.
    replace (replicate k 0%nat ++ [0%nat]) with (replicate (Datatypes.S k) 0%nat)
      by (by rewrite replicate_S_end).
    rewrite IH by lia. rewrite <- !app_assoc.
    replace (k + Datatypes.S (length idxs))%nat with (Datatypes.S k + length idxs)%nat
      by lia.
    reflexivity.
Qed.

(** X10.  If the whole shard fits the budget, [get_batches] yields the one
    batch of all entries once for every entry of the shard (and nothing
    for an empty shard). *)
Theorem get_batches_all_fit (ds : list PairSample) (batch_size : Z) (g : rng) :
  batch_tokens ds ≤ batch_size →
  ∃ b g', get_batches ds batch_size g = Some (replicate (length ds) b, g') ∧ b ≡ₚ ds.
Proof.
  intros Hfit.
  destruct (get_batches_trace ds batch_size g) as (st & refs & out & g' & Hst & Hrefs & Hout & Hget).
  pose proof (indices_perm (token_counts ds) g) as Hperm.
  assert (length (token_counts ds) = length ds) as Hlen
    by (unfold token_counts; by rewrite length_fmap).
  rewrite Hlen in Hperm.
  set (idxs := (indices (token_counts ds) g).1) in *.
  assert (entries_at ds idxs ≡ₚ ds) as Hent.
  { unfold entries_at. rewrite Hperm. apply (reflexive_eq _ _ (entries_at_all ds)). }
  pose proof (pack_loop_fits ds batch_size idxs [] 0) as Hloop.
  change {| heap := [[]]; batches := replicate 0 0%nat; num_tokens := batch_tokens []; batch := 0 |}
    with pack_init in Hloop.
  rewrite Hloop in Hst.
  - injection Hst as <-. simpl in *.
    assert (length idxs = length ds) as Hn by (by rewrite Hperm, length_seq).
    rewrite Hn in Hrefs. symmetry in Hrefs. apply replicate_Permutation in Hrefs. subst refs.
    exists (entries_at ds idxs), g'. split; [|done]. rewrite Hget. do 2 f_equal.
    clear -Hout. revert out Hout. induction (length ds) as [|n IH]; intros out Hout; simpl in *.
    + by apply Forall2_nil_inv_l in Hout.
    + apply Forall2_cons_inv_l in Hout as (b & out' & Hb & Hout & ->).
      simpl in Hb. injection Hb as <-. f_equal. by apply IH.
  - simpl. rewrite (batch_tokens_perm _ _ Hent). lia.
  - rewrite Hperm. apply Forall_seq. lia.
Qed.
(** X11.  Sharding and batching together drop nothing: every entry of the
    dataset is in a yielded batch of some rank. *)
Theorem pipeline_covers (ds : list PairSample) (world_size batch_size : Z) (g : rng)
    (e : PairSample) :
  0 < world_size → e ∈ ds →
  ∃ rank shard out g',
    0 ≤ rank < world_size
    ∧ shard_of ds world_size rank = Some shard
    ∧ get_batches shard batch_size g = Some (out, g')
    ∧ ∃ b, b ∈ out ∧ e ∈ b.
Proof.
  intros Hw He.
  assert (∃ step, Z.to_nat world_size = Datatypes.S step) as [step Hstep]
    by (exists (Z.to_nat world_size - 1)%nat; lia).
  rewrite <- (sorted_perm pair_len ds), <- (stride_union step) in He.
  apply elem_of_concat in He as (shard & He & Hshard).
  apply list_elem_of_fmap in Hshard as (r & -> & Hr%elem_of_seq).
  destruct (get_batches_yielded (Py.stride r step (Py.sorted pair_len ds)) batch_size g)
    as (st & out & g' & Hget & _ & Hcov & Hout).
  exists (Z.of_nat r), (Py.stride r step (Py.sorted pair_len ds)), out, g'.
  split_and!; [lia|lia| |done|].
  - rewrite shard_of_stride by lia. rewrite Nat2Z.id, Hstep. do 2 f_equal. lia.
  - destruct (Hcov e He) as (ref & b & Href & Hb & Heb).
    exists b. split; [|done]. apply Hout. eauto.
Qed.
End BatcherMore.

(** ** More on the vocabulary *)

Section DictMore.
Context {K V : Type} `{EqDecision K}.
Implicit Types (l pairs : list (K * V)).

Lemma dict_of_snoc pairs k v :
  Py.dict_of (pairs ++ [(k, v)]) = Py.assoc_set k v (Py.dict_of pairs).
Proof. unfold Py.dict_of. by rewrite foldl_app. Qed.

(** In a comprehension the last pair with a given key decides. *)
Lemma dict_of_lookup pairs k : Py.assoc k (Py.dict_of pairs) = Py.assoc k (reverse pairs).
Proof.
  induction pairs as [|[k0 v0] pairs IH] using rev_ind; [done|].
  rewrite dict_of_snoc, assoc_set_lookup, reverse_app. simpl.
  by rewrite IH.
Qed.

Lemma assoc_reverse_last pairs i k v :
  pairs !! i = Some (k, v) →
  (∀ j v', (i < j)%nat → pairs !! j ≠ Some (k, v')) →
  Py.assoc k (reverse pairs) = Some v.
Proof.
  revert i. induction pairs as [|[k0 v0] pairs IH] using rev_ind; intros i Hi Hlast; [done|].
  rewrite reverse_app. simpl.
  destruct (decide (i = length pairs)) as [->|Hne].
  - rewrite list_lookup_middle in Hi by done. simplify_eq. by rewrite decide_True.
  - pose proof (lookup_lt_Some _ _ _ Hi) as Hlt. rewrite length_app in Hlt. simpl in Hlt.
    rewrite lookup_app_l in Hi by lia.
    rewrite decide_False.
    + apply (IH i Hi). intros j v' Hj Hjv. apply (Hlast j v' Hj).
      rewrite lookup_app_l; [done|]. by eapply lookup_lt_Some.
    + intros ->. apply (Hlast (length pairs) v0); [lia|].
      by rewrite list_lookup_middle.
Qed.

Lemma assoc_set_elem k v l k' v' :
  (k', v') ∈ Py.assoc_set k v l → (k', v') = (k, v) ∨ (k', v') ∈ l.
Proof.
  induction l as [|[k0 v0] l IH]; simpl.
  - intros ->%list_elem_of_singleton. by left.
  - case_decide.
    + intros [->|Hin]%elem_of_cons; [by left|]. right. by right.
    + intros [->|Hin]%elem_of_cons; [right; by left|].
      destruct (IH Hin); [by left|]. right. by right.
Qed.

Lemma dict_of_elem pairs k v : (k, v) ∈ Py.dict_of pairs → (k, v) ∈ pairs.
Proof.
  induction pairs as [|[k0 v0] pairs IH] using rev_ind.
  - by intros ?%elem_of_nil.
  - rewrite dict_of_snoc. intros [->|Hin]%assoc_set_elem; apply elem_of_app; [right|left].
    + by left.
    + by apply IH.
Qed.

Lemma dict_of_keys pairs k : k ∈ (Py.dict_of pairs).*1 ↔ k ∈ pairs.*1.
Proof.
  induction pairs as [|[k0 v0] pairs IH] using rev_ind; [done|].
  rewrite dict_of_snoc, assoc_set_keys, fmap_app, elem_of_app. simpl.
  rewrite list_elem_of_singleton.
  case_decide as Hin.
  - rewrite IH. split; [by left|]. intros [?| ->]; [done|]. by apply IH.
  - rewrite elem_of_app, list_elem_of_singleton, IH. done.
Qed.

(** A lookup leaves every entry in place and stores at most the key that
    was looked up. *)
Lemma getitem_grows (d d' : Py.dict K V) k v :
  Py.getitem d k = Some (v, d') →
  Py.items d `prefix_of` Py.items d'
  ∧ Py.assoc k (Py.items d') = Some v
  ∧ Py.default_factory d' = Py.default_factory d
  ∧ ∀ k', k' ∈ (Py.items d').*1 → k' ∈ (Py.items d).*1 ∨ k' = k.
Proof.
  unfold Py.getitem.
  destruct (Py.assoc k (Py.items d)) as [v0|] eqn:Hk.
  - intros [= <- <-]. split_and!; [done..|]. by left.
  - destruct (Py.default_factory d) as [v0|] eqn:Hd; [|done].
    intros [= <- <-]. simpl. split_and!; [by apply prefix_app_r|..|done|].
    + rewrite assoc_app, Hk. simpl. by rewrite decide_True.
    + intros k'. rewrite fmap_app, elem_of_app. simpl. rewrite list_elem_of_singleton. tauto.
Qed.

Lemma assoc_prefix l l' k v :
  l `prefix_of` l' → Py.assoc k l = Some v → Py.assoc k l' = Some v.
Proof. intros [l2 ->] Hk. by rewrite assoc_app, Hk. Qed.

Lemma getitems_grows (d d' : Py.dict K V) keys vs :
  getitems d keys = Some (vs, d') →
  Py.items d `prefix_of` Py.items d'
  ∧ Forall2 (λ k v, Py.assoc k (Py.items d') = Some v) keys vs
  ∧ Py.default_factory d' = Py.default_factory d
  ∧ ∀ k', k' ∈ (Py.items d').*1 → k' ∈ (Py.items d).*1 ∨ k' ∈ keys.
Proof.
  revert d vs. induction keys as [|k keys IH]; intros d vs; simpl.
  - intros [= <- <-]. split_and!; [done|constructor|done|]. by left.
  - destruct (Py.getitem d k) as [[v d1]|] eqn:Hget; simpl; [|done].
    destruct (getitems d1 keys) as [[vs' d2]|] eqn:Hrest; simpl; [|done].
    intros [= <- <-].
    destruct (getitem_grows _ _ _ _ Hget) as (Hpre1 & Hk & Hdef1 & Hkeys1).
    destruct (IH _ _ Hrest) as (Hpre2 & Hall & Hdef2 & Hkeys2).
    split_and!.
    + by etrans.
    + constructor; [by eapply assoc_prefix|done].
    + congruence.
    + intros k' [Hin|Hin]%Hkeys2; [|right; by right].
      destruct (Hkeys1 k' Hin) as [?| ->]; [by left|right; by left].
Qed.

(** A plain dictionary raises on a missing key wherever it occurs among
    the keys looked up. *)
Lemma getitems_missing (d : Py.dict K V) keys k :
  Py.default_factory d = None → k ∈ keys → Py.assoc k (Py.items d) = None →
  getitems d keys = None.
Proof.
  intros Hdef Hin Hk. induction keys as [|k0 keys IH]; [by apply elem_of_nil in Hin|].
  simpl. unfold Py.getitem.
  destruct (decide (k0 = k)) as [->|Hne].
  - by rewrite Hk, Hdef.
  - destruct (Py.assoc k0 (Py.items d)); simpl; [|by rewrite Hdef].
    apply elem_of_cons in Hin as [?|Hin]; [done|]. by rewrite IH.
Qed.
End DictMore.

Lemma read_vocab_pairs text :
  ∃ keys, vocab_keys text = Some keys
          ∧ length keys = length (Py.readlines text)
          ∧ read_vocab text
            = Some (Py.Dict (Py.dict_of (imap (λ i key, (key, Z.of_nat i)) keys)) (Some 2)).
Proof.
  assert (is_Some (vocab_keys text)) as [keys Hkeys].
  { unfold vocab_keys. apply mapM_is_Some, Forall_forall. intros k _. apply key_of_line_total. }
  exists keys. split; [done|]. split.
  - unfold vocab_keys in Hkeys. symmetry. by eapply length_mapM.
  - unfold read_vocab, enumerate.
    pose proof (mapM_enumerate id _ keys Hkeys) as Hpairs.
    change (imap pair (Py.readlines text))
      with (imap (λ (i : nat) (k : string), (id i, k)) (Py.readlines text)).
    by rewrite Hpairs.
Qed.

(** X12.  Loading numbers the lines of the vocabulary text from 0, and a
    token that stands on several lines gets the number of the last of
    them; the tokens of the vocabulary are exactly the first fields of the
    lines. *)
Theorem read_vocab_last_wins (text : string) :
  ∃ keys vocab,
    vocab_keys text = Some keys
    ∧ read_vocab text = Some vocab
    ∧ (∀ w, w ∈ (Py.items vocab).*1 ↔ w ∈ keys)
    ∧ ∀ i w, keys !! i = Some w → (∀ j, (i < j)%nat → keys !! j ≠ Some w) →
        Py.assoc w (Py.items vocab) = Some (Z.of_nat i).
Proof.
  destruct (read_vocab_pairs text) as (keys & Hkeys & _ & Hread).
  eexists keys, _. split_and!; [done..| |].
  - intros w. simpl. by rewrite dict_of_keys, (imap_keys (λ i, Z.of_nat i)).
  - intros i w Hi Hlast. simpl. rewrite dict_of_lookup.
    apply (assoc_reverse_last _ i).
    + by rewrite list_lookup_imap, Hi.
    + intros j v' Hj. rewrite list_lookup_imap.
      destruct (keys !! j) as [w'|] eqn:Hw'; simpl; [|done].
      intros [= -> <-]. by apply (Hlast j).
Qed.

(** X13.  Every id that [vectorize] returns for a loaded vocabulary is 2
    or the number of a line of the vocabulary text; so it is never
    negative, and never the padding value -1 of the collator. *)
Theorem vectorize_ids_valid (text line : string) (wrap : bool) :
  ∃ vocab ids vocab',
    read_vocab text = Some vocab
    ∧ vectorize line vocab wrap = Some (ids, vocab')
    ∧ Forall (λ id, id = 2 ∨ 0 ≤ id < Z.of_nat (length (Py.readlines text))) ids
    ∧ Forall valid_id ids.
Proof.
  destruct (read_vocab_pairs text) as (keys & Hkeys & Hlen & Hread).
  set (vocab := Py.Dict (Py.dict_of (imap (λ i key, (key, Z.of_nat i)) keys)) (Some 2)) in *.
  destruct (vectorize_default vocab line wrap eq_refl) as (vocab' & Hvec & _).
  exists vocab, (token_ids vocab line wrap), vocab'. split_and!; [done..| |].
  - assert (∀ w, token_id vocab w = 2
                 ∨ 0 ≤ token_id vocab w < Z.of_nat (length (Py.readlines text))) as Hid.
    { intros w. unfold token_id.
      destruct (Py.assoc w (Py.items vocab)) as [v|] eqn:Hw; simpl; [|by left].
      apply assoc_Some_elem, dict_of_elem, list_elem_of_lookup_1 in Hw as [i Hi].
      rewrite list_lookup_imap in Hi.
      destruct (keys !! i) as [w'|] eqn:Hw'; simplify_eq/=.
      apply lookup_lt_Some in Hw'. right. lia. }
    unfold token_ids. destruct wrap.
    + constructor; [apply Hid|]. apply Forall_app. split; [|by constructor].
      apply Forall_fmap, Forall_forall. intros w _. apply Hid.
    + apply Forall_fmap, Forall_forall. intros w _. apply Hid.
  - assert (∀ w, valid_id (token_id vocab w)) as Hid.
    { intros w. unfold token_id, valid_id.
      destruct (Py.assoc w (Py.items vocab)) as [v|] eqn:Hw; simpl; [|lia].
      apply assoc_Some_elem, dict_of_elem, list_elem_of_lookup_1 in Hw as [i Hi].
      rewrite list_lookup_imap in Hi.
      destruct (keys !! i) as [w'|] eqn:Hw'; simplify_eq/=. lia. }
    unfold token_ids. destruct wrap.
    + constructor; [apply Hid|]. apply Forall_app. split; [|by constructor].
      apply Forall_fmap, Forall_forall. intros w _. apply Hid.
    + apply Forall_fmap, Forall_forall. intros w _. apply Hid.
Qed.

(** X14.  Looking words up changes the vocabulary object: [vectorize]
    keeps every entry in its place, stores every word of the line that has
    no entry with the id 2, and stores nothing but words of the line and,
    when wrapping, the two markers. *)
Theorem vectorize_stores_unknown (text line : string) (wrap : bool) :
  ∃ vocab ids vocab',
    read_vocab text = Some vocab
    ∧ vectorize line vocab wrap = Some (ids, vocab')
    ∧ Py.items vocab `prefix_of` Py.items vocab'
    ∧ (∀ w, w ∈ Py.split line → Py.assoc w (Py.items vocab') = Some (token_id vocab w))
    ∧ (∀ w, w ∈ (Py.items vocab').*1 →
         w ∈ (Py.items vocab).*1 ∨ w ∈ Py.split line ∨ (wrap = true ∧ w ∈ [SOS; EOS])).
Proof.
  destruct (read_vocab_total text) as (vocab & Hread & Hdef).
  destruct (vectorize_default vocab line wrap Hdef) as (vocab' & Hvec & _ & Hsame).
  exists vocab, (token_ids vocab line wrap), vocab'. split_and!; [done..| | |].
  all: unfold vectorize in Hvec;
    destruct (getitems vocab (Py.split line)) as [[tokens v1]|] eqn:Hwords; simpl in Hvec; [|done];
    destruct (getitems_grows _ _ _ _ Hwords) as (Hpre1 & Hall1 & Hdef1 & Hkeys1).
  - destruct wrap; [|by simplify_eq].
    destruct (Py.getitem v1 SOS) as [[sos v2]|] eqn:Hsos; simpl in Hvec; [|done].
    destruct (Py.getitem v2 EOS) as [[eos v3]|] eqn:Heos; simpl in Hvec; [|done].
    simplify_eq.
    destruct (getitem_grows _ _ _ _ Hsos) as (Hpre2 & _).
    destruct (getitem_grows _ _ _ _ Heos) as (Hpre3 & _).
    by repeat (etrans; [eassumption|]).
  - intros w Hw.
    assert (is_Some (Py.assoc w (Py.items vocab'))) as [v Hv].
    { apply list_elem_of_lookup_1 in Hw as [i Hi].
      destruct (Forall2_lookup_l _ _ _ _ _ Hall1 Hi) as (v & _ & Hv).
      exists v. destruct wrap; [|by simplify_eq].
      destruct (Py.getitem v1 SOS) as [[sos v2]|] eqn:Hsos; simpl in Hvec; [|done].
      destruct (Py.getitem v2 EOS) as [[eos v3]|] eqn:Heos; simpl in Hvec; [|done].
      simplify_eq.
      destruct (getitem_grows _ _ _ _ Hsos) as (Hpre2 & _).
      destruct (getitem_grows _ _ _ _ Heos) as (Hpre3 & _).
      eapply assoc_prefix; [|eapply assoc_prefix; [|exact Hv]]; done. }
    rewrite Hv. f_equal. specialize (Hsame w). unfold token_id in Hsame.
    by rewrite Hv in Hsame.
  - intros w Hw. destruct wrap.
    + destruct (Py.getitem v1 SOS) as [[sos v2]|] eqn:Hsos; simpl in Hvec; [|done].
      destruct (Py.getitem v2 EOS) as [[eos v3]|] eqn:Heos; simpl in Hvec; [|done].
      simplify_eq.
      destruct (getitem_grows _ _ _ _ Hsos) as (_ & _ & _ & Hkeys2).
      destruct (getitem_grows _ _ _ _ Heos) as (_ & _ & _ & Hkeys3).
      destruct (Hkeys3 w Hw) as [Hw2| ->]; [|right; right; split; [done|by right; left]].
      destruct (Hkeys2 w Hw2) as [Hw1| ->]; [|right; right; split; [done|by left]].
      destruct (Hkeys1 w Hw1); auto.
    + simplify_eq. destruct (Hkeys1 w Hw); auto.
Qed.

(** X15.  [devectorize] raises as soon as one id of the sequence has no
    entry in a plain reverse mapping, also an id that stands behind the
    end marker and would be cut off. *)
Theorem devectorize_missing_id (tokens : list Z) (ivocab : Py.dict Z string)
    (unwrap : bool) (id : Z) :
  Py.default_factory ivocab = None →
  id ∈ tokens → Py.assoc id (Py.items ivocab) = None →
  devectorize tokens ivocab unwrap = None.
Proof.
  intros Hdef Hin Hid. unfold devectorize.
  by rewrite (getitems_missing ivocab tokens id).
Qed.

Lemma reverse_mapping_inverts (keys : list string) (w : string) (id : Z) :
  (w, id) ∈ Py.items (numbered keys) →
  Py.assoc id (Py.items (reverse_mapping (numbered keys))) = Some w.
Proof.
  simpl. intros (i & key & [= -> ->] & Hi)%elem_of_lookup_imap.
  by apply reverse_lookup.
Qed.

(** X16.  For a vocabulary text that is well formed (the three markers
    first, no token twice), without wrapping and unwrapping the round
    trip holds for every
    line, also one that holds the end marker, and through every reverse
    mapping that sends the id of each vocabulary entry back to its token:
    the words come back joined by single spaces, each word that the
    vocabulary lacks replaced by the unknown-token text, and the reverse
    mapping is left as it was. *)
Theorem round_trip_unwrapped (text line : string) (vocab : Py.dict string Z)
    (ivocab : Py.dict Z string) :
  well_formed text → read_vocab text = Some vocab →
  (∀ w id, (w, id) ∈ Py.items vocab → Py.assoc id (Py.items ivocab) = Some w) →
  ∃ ids vocab',
    vectorize line vocab false = Some (ids, vocab')
    ∧ devectorize ids ivocab false
      = Some (Py.join (String Py.space EmptyString) (known_or_unk vocab <$> Py.split line),
              ivocab).
Proof.
  intros (rest & Hkeys & Hnd) Hread Hinv.
  set (keys := SOS :: EOS :: UNK :: rest) in *.
  rewrite (read_vocab_keys text keys Hkeys Hnd) in Hread. injection Hread as <-.
  destruct (vectorize_default (numbered keys) line false eq_refl) as (vocab' & Hvec & _).
  exists (token_ids (numbered keys) line false), vocab'. split; [done|].
  assert (∀ w, Py.assoc (token_id (numbered keys) w) (Py.items ivocab)
               = Some (known_or_unk (numbered keys) w)) as Hback.
  { intros w. unfold token_id, known_or_unk. rewrite numbered_keys.
    case_decide as Hw.
    - apply list_elem_of_lookup_1 in Hw as [i Hi].
      pose proof (numbered_lookup keys Hnd i w Hi) as Hid. rewrite Hid. simpl.
      by apply Hinv, assoc_Some_elem.
    - assert (Py.assoc w (Py.items (numbered keys)) = None) as ->
        by (apply assoc_None; by rewrite numbered_keys).
      simpl. apply Hinv, assoc_Some_elem.
      by apply (numbered_lookup keys Hnd 2 UNK). }
  unfold devectorize, token_ids.
  rewrite (getitems_present _ (λ id, default EmptyString (Py.assoc id (Py.items ivocab)))).
  - cbn [mbind option_bind]. rewrite <- list_fmap_compose. do 3 f_equal.
    apply list_fmap_ext. intros i w _. simpl. by rewrite Hback.
  - apply Forall_fmap, Forall_forall. intros w _. simpl. by rewrite Hback.
Qed.

(** ** The frequency table *)

Lemma total_count_assoc_set (k : string) (v : Z) (l : list (string * Z)) :
  total_count (Py.assoc_set k v l) = total_count l - default 0 (Py.assoc k l) + v.
Proof.
  induction l as [|[k' v'] l IH]; simpl; [lia|].
  case_decide; simpl; [lia|]. rewrite IH. lia.
Qed.

Lemma total_count_fold (acc : list (string * Z)) (words : list string) :
  total_count (foldl (λ acc k, Py.assoc_set k (default 0 (Py.assoc k acc) + 1) acc) acc words)
  = total_count acc + Z.of_nat (length words).
Proof.
  revert acc. induction words as [|w words IH]; intros acc; simpl; [lia|].
  rewrite IH, total_count_assoc_set. lia.
Qed.

(** X17.  The counts of the frequency table add up to the number of words
    of the corpus, and every word in the table has a count of at least
    1. *)
Theorem build_vocab_counts (files : list string) :
  total_count (build_vocab files) = Z.of_nat (length (corpus_words files))
  ∧ ∀ w c, (w, c) ∈ build_vocab files → 1 ≤ c.
Proof.
  split.
  - unfold build_vocab, Py.Counter. by rewrite total_count_fold.
  - intros w c Hin.
    destruct (Counter_spec (corpus_words files)) as (_ & Hkeys & Hcount).
    rewrite (Hcount w c Hin).
    assert (w ∈ corpus_words files) as Hw.
    { apply Hkeys, list_elem_of_fmap. by exists (w, c). }
    unfold occurrences.
    assert (w ∈ filter (λ w', w' = w) (corpus_words files)) as Hf
      by (by apply list_elem_of_filter).
    destruct (filter _ _); [by apply elem_of_nil in Hf|]. simpl. lia.
Qed.

Lemma Counter_keys_fold (acc : list (string * Z)) (words : list string) :
  (foldl (λ acc k, Py.assoc_set k (default 0 (Py.assoc k acc) + 1) acc) acc words).*1
  = acc.*1 ++ filter (λ w, w ∉ acc.*1) (first_occurrences words).
Proof.
  revert acc. induction words as [|k words IH]; intros acc; simpl.
  - by rewrite app_nil_r.
  - rewrite IH, assoc_set_keys. case_decide as Hk.
    + f_equal. rewrite filter_cons, decide_False by (by intros ?).
      rewrite list_filter_filter. apply list_filter_iff. intros w. split; [|by intros [? _]].
      intros Hw. split; [done|]. by intros ->.
    + rewrite <- app_assoc. f_equal. rewrite filter_cons, decide_True by done.
      simpl. f_equal. rewrite list_filter_filter. apply list_filter_iff. intros w.
      rewrite not_elem_of_app, list_elem_of_singleton. done.
Qed.

(** A [Counter] holds its keys in the order of their first occurrence. *)
Lemma Counter_keys (words : list string) :
  (Py.Counter words).*1 = first_occurrences words.
Proof.
  unfold Py.Counter. rewrite Counter_keys_fold. simpl.
  induction (first_occurrences words) as [|w l IH]; [done|].
  rewrite filter_cons_True by (by intros ?%elem_of_nil). by rewrite IH.
Qed.

(** X27.  Ties are broken by first occurrence: the frequency table holds
    the distinct words of the corpus in the order in which they first
    occur, and among the entries of any one count the descending sort of
    [write_vocab] keeps the order of the table. *)
Theorem vocabulary_ties (files : list string) (c : Z) :
  let counter := build_vocab files in
  counter.*1 = first_occurrences (corpus_words files)
  ∧ filter (λ e : string * Z, e.2 = c) (Py.sorted_reverse snd counter)
    = filter (λ e : string * Z, e.2 = c) counter.
Proof.
  intros counter. split; [apply Counter_keys|].
  unfold Py.sorted_reverse.
  pose proof (sorted_stable (λ e : string * Z, - e.2) (- c) counter) as Hst.
  assert (∀ l : list (string * Z),
            filter (λ e : string * Z, e.2 = c) l = filter (λ e : string * Z, - e.2 = - c) l) as Heq.
  { intros l. apply list_filter_iff. intros e. lia. }
  by rewrite !Heq.
Qed.

(** ** Lines of a text *)

(** X18.  Iterating over a text cuts it into lines without losing a
    character: the lines put together are the text, no line is empty, and
    a newline occurs in a line only as its last character. *)
Theorem readlines_partition (text : string) :
  concat_str (Py.readlines text) = text
  ∧ Forall (λ line, line ≠ EmptyString
                    ∧ ∃ body, (Py.newline ∉ chars body)
                              ∧ (line = body ∨ line = body +:+ String Py.newline EmptyString))
           (Py.readlines text).
Proof.
  induction text as [|c text [IHc IHl]]; [by split; [|constructor]|].
  cbn [Py.readlines]. case_decide as Hc.
  - subst c. split; [simpl; by rewrite IHc|].
    constructor; [|done]. split; [done|]. exists EmptyString. split; [|by right].
    by intros ?%elem_of_nil.
  - destruct (Py.readlines text) as [|l ls] eqn:Hlines.
    + simpl in IHc. subst text. split; [done|].
      constructor; [|done]. split; [done|]. exists (String c EmptyString). split; [|by left].
      unfold chars. simpl. intros [?|?%elem_of_nil]%elem_of_cons; [by subst|done].
    + split; [rewrite <- IHc; reflexivity|].
      apply Forall_cons_1 in IHl as [[_ (body & Hbody & Hl)] Hls].
      constructor; [|done]. split; [done|]. exists (String c body). split.
      * unfold chars in *. simpl. intros [?|?]%elem_of_cons; [by subst|done].
      * destruct Hl as [-> | ->]; [by left|by right].
Qed.

(** ** [merge_bpe] *)

Lemma merge_bpe_other (c : ascii) (rest : string) :
  c ≠ "@"%char → merge_bpe (String c rest) = String c (merge_bpe rest).
Proof.
  intros Hc. destruct rest as [|c2 [|c3 rest']]; try done.
  cbn [merge_bpe]. rewrite decide_False; [done|]. by intros [? _].
Qed.

Lemma merge_bpe_plain (s : string) : "@"%char ∉ chars s → merge_bpe s = s.
Proof.
  induction s as [|c s IH]; [done|]. intros Hin.
  assert ("@"%char ≠ c ∧ "@"%char ∉ chars s) as [Hc Hs]
    by (by apply not_elem_of_cons).
  rewrite merge_bpe_other by done. by rewrite IH.
Qed.

Lemma merge_bpe_piece (piece rest : string) :
  "@"%char ∉ chars piece →
  merge_bpe (piece +:+ String "@" (String "@" (String " " rest))) = piece +:+ merge_bpe rest.
Proof.
  induction piece as [|c piece IH]; [done|]. intros Hin.
  assert ("@"%char ≠ c ∧ "@"%char ∉ chars piece) as [Hc Hs]
    by (by apply not_elem_of_cons).
  change (String c piece +:+ String "@" (String "@" (String " " rest)))
    with (String c (piece +:+ String "@" (String "@" (String " " rest)))).
  rewrite merge_bpe_other by done. by rewrite IH.
Qed.

Lemma append_empty (s : string) : s +:+ EmptyString = s.
Proof.
  induction s as [|c s IH]; [done|].
  change (String c s +:+ EmptyString) with (String c (s +:+ EmptyString)). by rewrite IH.
Qed.

(** X19.  [merge_bpe] undoes the segmentation: for pieces that hold no
    [@], the pieces joined by ["@@ "] merge into the pieces put together
    directly. *)
Theorem merge_bpe_join (pieces : list string) :
  Forall (λ piece, "@"%char ∉ chars piece) pieces →
  merge_bpe (Py.join "@@ " pieces) = concat_str pieces.
Proof.
  induction 1 as [|piece pieces Hpiece Hpieces IH]; [done|].
  destruct pieces as [|piece2 pieces].
  - cbn [Py.join concat_str foldr]. rewrite merge_bpe_plain by done.
    by rewrite append_empty.
  - change (Py.join "@@ " (piece :: piece2 :: pieces))
      with (piece +:+ String "@" (String "@" (String " " (Py.join "@@ " (piece2 :: pieces))))).
    rewrite merge_bpe_piece by done. by rewrite IH.
Qed.

(** X20.  [merge_bpe] only drops characters: what it returns is the line
    with some characters left out, and a line without [@] comes back
    unchanged. *)
Theorem merge_bpe_sublist (line : string) :
  chars (merge_bpe line) `sublist_of` chars line
  ∧ ("@"%char ∉ chars line → merge_bpe line = line).
Proof.
  split; [|apply merge_bpe_plain].
  assert (∀ n s, (String.length s < n)%nat → chars (merge_bpe s) `sublist_of` chars s) as Hn.
  { induction n as [|n IH]; intros s Hlen; [lia|].
    destruct s as [|c [|c2 [|c3 rest]]]; try done.
    cbn [merge_bpe]. case_decide.
    - unfold chars. cbn [list_ascii_of_string]. do 3 apply sublist_cons.
      apply IH. simpl in Hlen. lia.
    - unfold chars. cbn [list_ascii_of_string]. apply sublist_skip.
      apply (IH (String c2 (String c3 rest))). simpl in *. lia. }
  apply (Hn (Datatypes.S (String.length line))). lia.
Qed.

(** ** More on collation *)

Lemma count_row (width : nat) (s : list Z) :
  Forall (λ x, x ≠ -1) s →
  length (filter (λ b, b = true) ((λ x, negb (x =? -1)) <$> padded width (-1) s)) = length s.
Proof.
  intros Hs. unfold padded. rewrite fmap_app, filter_app, length_app.
  assert (filter (λ b : bool, b = true) ((λ x, negb (x =? -1)) <$> replicate (width - length s) (-1))
          = []) as ->.
  { induction (width - length s)%nat as [|n IH]; [done|]. cbn [replicate].
    rewrite fmap_cons, filter_cons. by rewrite decide_False. }
  cbn [length]. rewrite Nat.add_0_r.
  induction Hs as [|x s Hx _ IH]; [done|]. rewrite fmap_cons, filter_cons.
  destruct (Z.eqb_spec x (-1)) as [|_]; [done|].
  rewrite decide_True by done. cbn [length]. by rewrite IH.
Qed.

Lemma numels_padded (width : nat) (samples : list PairSample) :
  Forall (λ pair : PairSample, Forall (λ x, x ≠ -1) pair.2) samples →
  count_true (Collator.ne (padded width (-1) <$> samples.*2) (-1)) = target_tokens samples.
Proof.
  induction 1 as [|[src tgt] samples Htgt _ IH]; [done|].
  unfold count_true, target_tokens, Collator.ne in *.
  rewrite !fmap_cons. cbn [foldr snd]. rewrite count_row by done. by rewrite IH.
Qed.

(** X21.  For a batch that is not empty, whose ids are 64-bit integers
    and whose target ids are not -1, collation returns, and the count of
    target entries other than the padding value -1, which the evaluation
    adds up as its number of elements, is the number of target ids of the
    batch. *)
Theorem collate_numels (samples : list PairSample) :
  samples ≠ [] →
  Forall (λ pair : PairSample, Forall int64 pair.1 ∧ Forall int64 pair.2) samples →
  Forall (λ pair : PairSample, Forall (λ x, x ≠ -1) pair.2) samples →
  ∃ source_ids target_ids source_mask causal_mask,
    Collator.collate_fn samples = Some (source_ids, target_ids, source_mask, causal_mask)
    ∧ count_true (Collator.ne target_ids (-1)) = target_tokens samples.
Proof.
  intros Hne Hids Hvalid.
  assert (samples.*1 ≠ [] ∧ samples.*2 ≠ []) as [Hne1 Hne2] by (by destruct samples).
  unfold Collator.collate_fn.
  rewrite (tensors_long fst), (tensors_long snd)
    by (eapply Forall_impl; [exact Hids|]; by intros pair [? ?]).
  simpl. rewrite !pad_sequence_Some by done.
  do 4 eexists. split; [reflexivity|]. by apply numels_padded.
Qed.

Lemma collate_fn_Some (samples : list PairSample) :
  samples ≠ [] →
  Forall (λ pair : PairSample, Forall int64 pair.1 ∧ Forall int64 pair.2) samples →
  is_Some (Collator.collate_fn samples).
Proof.
  intros Hne Hids.
  assert (samples.*1 ≠ [] ∧ samples.*2 ≠ []) as [Hne1 Hne2] by (by destruct samples).
  unfold Collator.collate_fn.
  rewrite (tensors_long fst), (tensors_long snd)
    by (eapply Forall_impl; [exact Hids|]; by intros pair [? ?]).
  simpl. rewrite !pad_sequence_Some by done. by eexists.
Qed.

(** X26.  Collation raises exactly when the batch is empty or one of its
    ids is no 64-bit integer. *)
Theorem collate_fn_raises_iff (samples : list PairSample) :
  Collator.collate_fn samples = None
  ↔ samples = [] ∨ ∃ pair x, pair ∈ samples ∧ (x ∈ pair.1 ∨ x ∈ pair.2) ∧ ¬ int64 x.
Proof.
  split.
  - intros Hnone. destruct samples as [|pair samples]; [by left|]. right.
    destruct (decide (Forall (λ pair : PairSample, Forall int64 pair.1 ∧ Forall int64 pair.2)
                             (pair :: samples))) as [Hids|Hbad].
    + destruct (collate_fn_Some (pair :: samples)) as [t Ht]; [done..|]. congruence.
    + apply not_Forall_Exists in Hbad; [|apply _].
      apply Exists_exists in Hbad as (p & Hp & Hbad).
      apply not_and_l in Hbad as [Hbad|Hbad];
        (apply not_Forall_Exists in Hbad; [|apply _]);
        apply Exists_exists in Hbad as (x & Hx & Hbad); exists p, x; auto.
  - intros [->|(pair & x & Hpair & Hx & Hbad)]; [done|].
    unfold Collator.collate_fn.
    destruct Hx as [Hx|Hx].
    + assert (mapM (λ pair : PairSample, Collator.tensor_long pair.1) samples = None) as ->;
        [|done].
      apply eq_None_not_Some. rewrite mapM_is_Some, Forall_forall. intros Hall.
      specialize (Hall pair Hpair). simpl in Hall.
      rewrite (tensor_long_None _ x Hx Hbad) in Hall. by destruct Hall.
    + destruct (mapM (λ pair : PairSample, Collator.tensor_long pair.1) samples); [|done].
      simpl. destruct (Collator.pad_sequence _ _); [|done]. simpl.
      assert (mapM (λ pair : PairSample, Collator.tensor_long pair.2) samples = None) as ->;
        [|done].
      apply eq_None_not_Some. rewrite mapM_is_Some, Forall_forall. intros Hall.
      specialize (Hall pair Hpair). simpl in Hall.
      rewrite (tensor_long_None _ x Hx Hbad) in Hall. by destruct Hall.
Qed.

(** ** Vectorized corpora on disk *)

Lemma zip_swap {A B} (l : list A) (k : list B) :
  zip k l = (λ p, (p.2, p.1)) <$> zip l k.
Proof.
  revert k. induction l as [|x l IH]; intros [|y k]; simpl; try done.
  by rewrite IH.
Qed.

Lemma mapM_fmap_comm {A B C} (f : A → option B) (h : B → C) (l : list A) :
  mapM (λ x, h <$> f x) l = fmap h <$> mapM f l.
Proof.
  induction l as [|x l IH]; [done|]. simpl. rewrite IH.
  destruct (f x); simpl; [|done]. by destruct (mapM f l).
Qed.

(** X22.  Loading with [flip] gives the pairs of the plain loading with
    source and target exchanged, subset by subset, and raises for the same
    files. *)
Theorem load_datasets_flip (fs : files) (path : string) (subsets : list string) :
  load_datasets fs path subsets true
  = (λ sets : list (list PairSample),
       (λ pairs : list PairSample, (λ pair, (pair.2, pair.1)) <$> pairs) <$> sets)
    <$> load_datasets fs path subsets false.
Proof.
  unfold load_datasets. rewrite <- mapM_fmap_comm. apply mapM_ext. intros subset.
  destruct (pickle_load fs (data_file path subset "en" ".vec")) as [src|]; [|done].
  destruct (pickle_load fs (data_file path subset "de" ".vec")) as [tgt|]; [|done].
  simpl. by rewrite zip_swap.
Qed.

Lemma chars_inj (s1 s2 : string) : chars s1 = chars s2 → s1 = s2.
Proof.
  intros Heq. rewrite <- (string_of_list_ascii_of_string s1),
    <- (string_of_list_ascii_of_string s2). unfold chars in Heq. by rewrite Heq.
Qed.

Lemma data_file_chars (path subset lang ext : string) :
  chars (data_file path subset lang ext)
  = (chars path ++ chars "/" ++ chars subset ++ chars "." ++ chars lang) ++ chars ext.
Proof. unfold data_file. rewrite !chars_app. by rewrite <- !app_assoc. Qed.

(** A vectorized file is never one of the text files. *)
Lemma data_file_ext (path subset lang subset' lang' : string) :
  data_file path subset lang ".vec" ≠ data_file path subset' lang' ".bpe".
Proof.
  intros Heq%(f_equal chars). rewrite !data_file_chars in Heq.
  apply app_inj_2 in Heq as [_ Hext]; [|done]. done.
Qed.

Lemma data_file_inj (path subset lang subset' lang' : string) :
  subset ∈ ["train"; "dev"; "test"] → subset' ∈ ["train"; "dev"; "test"] →
  lang ∈ ["en"; "de"] → lang' ∈ ["en"; "de"] →
  data_file path subset lang ".vec" = data_file path subset' lang' ".vec" →
  subset = subset' ∧ lang = lang'.
Proof.
  intros Hs Hs' Hl Hl' Heq. unfold data_file in Heq. apply (inj (String.app path)) in Heq.
  repeat (apply elem_of_cons in Hs as [->|Hs]); [..|by apply elem_of_nil in Hs];
    (repeat (apply elem_of_cons in Hs' as [->|Hs']); [..|by apply elem_of_nil in Hs']);
    (repeat (apply elem_of_cons in Hl as [->|Hl]); [..|by apply elem_of_nil in Hl]);
    (repeat (apply elem_of_cons in Hl' as [->|Hl']); [..|by apply elem_of_nil in Hl']);
    by vm_compute in Heq.
Qed.

Lemma token_ids_ext (vocab vocab' : Py.dict string Z) (line : string) (wrap : bool) :
  (∀ w, token_id vocab' w = token_id vocab w) →
  token_ids vocab' line wrap = token_ids vocab line wrap.
Proof.
  intros Hsame. unfold token_ids.
  assert (token_id vocab' <$> Py.split line = token_id vocab <$> Py.split line) as ->
    by (apply list_fmap_ext; auto).
  by rewrite !Hsame.
Qed.

Lemma vectorize_lines_state (vocab : Py.dict string Z) (lines : list string) (wrap : bool) :
  Py.default_factory vocab = Some 2 →
  ∃ vocab', vectorize_lines lines vocab wrap
            = Some ((λ line, token_ids vocab line wrap) <$> lines, vocab')
            ∧ Py.default_factory vocab' = Some 2
            ∧ ∀ w, token_id vocab' w = token_id vocab w.
Proof.
  revert vocab. induction lines as [|line lines IH]; intros vocab Hdef; simpl.
  - by exists vocab.
  - destruct (vectorize_default vocab line wrap Hdef) as (v1 & -> & Hdef1 & Hsame). simpl.
    destruct (IH v1 Hdef1) as (v2 & -> & Hdef2 & Hsame2). simpl. exists v2.
    split_and!; [|done|].
    + do 3 f_equal. apply list_fmap_ext. intros _ l _. by apply token_ids_ext.
    + intros w. by rewrite Hsame2.
Qed.

Section VectorizeFiles.
Context (path : string) (vocab0 : Py.dict string Z) (texts : string * string → string).

Lemma vectorize_jobs_spec (fs : files) (vocab : Py.dict string Z) (jobs : list (string * string)) :
  Py.default_factory vocab = Some 2 →
  (∀ w, token_id vocab w = token_id vocab0 w) →
  (∀ job, job ∈ jobs → read_text fs (data_file path job.2 job.1 ".bpe") = Some (texts job)) →
  (∀ j1 j2, j1 ∈ jobs → j2 ∈ jobs →
     data_file path j1.2 j1.1 ".vec" = data_file path j2.2 j2.1 ".vec" → j1 = j2) →
  ∃ fs' vocab',
    vectorize_jobs path (fs, vocab) jobs = Some (fs', vocab')
    ∧ (∀ job, job ∈ jobs →
         fs' (data_file path job.2 job.1 ".vec") = Some (Pickled (corpus_ids vocab0 (texts job))))
    ∧ (∀ name, (∀ job, job ∈ jobs → name ≠ data_file path job.2 job.1 ".vec") →
         fs' name = fs name).
Proof.
  revert fs vocab. induction jobs as [|job jobs IH]; intros fs vocab Hdef Hsame Htexts Hinj.
  - exists fs, vocab. split_and!; [done| |done]. by intros job ?%elem_of_nil.
  - cbn [vectorize_jobs]. unfold vectorize_job. cbn [fst snd].
    rewrite (Htexts job) by (by left). cbn [mbind option_bind].
    unfold vectorize_file.
    destruct (vectorize_lines_state vocab (Py.readlines (texts job)) true Hdef)
      as (vocab1 & -> & Hdef1 & Hsame1). cbn [mbind option_bind].
    set (ids := (λ line, token_ids vocab line true) <$> Py.readlines (texts job)).
    assert (ids = corpus_ids vocab0 (texts job)) as Hids.
    { unfold ids, corpus_ids. apply list_fmap_ext. intros _ l _. by apply token_ids_ext. }
    set (fs1 := pickle_dump fs (data_file path job.2 job.1 ".vec") ids).
    destruct (IH fs1 vocab1) as (fs' & vocab' & Hrun & Hwritten & Hframe).
    + done.
    + intros w. by rewrite Hsame1.
    + intros j Hj. unfold read_text, fs1, pickle_dump.
      rewrite decide_False; [by apply Htexts; right|].
      intros Heq. by eapply data_file_ext.
    + intros j1 j2 H1 H2. apply Hinj; by right.
    + exists fs', vocab'. split_and!; [done| |].
      * intros j [->|Hj]%elem_of_cons; [|by apply Hwritten].
        destruct (decide (job ∈ jobs)) as [Hin|Hnotin]; [by apply Hwritten|].
        rewrite Hframe.
        -- unfold fs1, pickle_dump. rewrite decide_True by done. by rewrite Hids.
        -- intros j Hj Heq. apply Hnotin.
           rewrite (Hinj job j); [done|by left|by right|done].
      * intros name Hname. rewrite Hframe.
        -- unfold fs1, pickle_dump. rewrite decide_False; [done|]. apply Hname. by left.
        -- intros j Hj. apply Hname. by right.
Qed.
End VectorizeFiles.

(** X23.  Vectorizing and loading fit together: if the vocabulary file and
    the six corpus files are there, [vectorize_files] returns, in whatever
    order the two sets are walked, and [load_datasets] then yields for
    each subset the id sequences of its English lines paired by position
    with those of its German lines (exchanged under [flip]), each
    sequence wrapped and made with the vocabulary as loaded. *)
Theorem vectorize_then_load (fs : files) (path vocab_path vocab_text : string)
    (langs subsets : list string) (texts : string * string → string) (flip : bool) :
  read_text fs vocab_path = Some vocab_text →
  langs ≡ₚ ["en"; "de"] → subsets ≡ₚ ["train"; "dev"; "test"] →
  (∀ lang subset, lang ∈ ["en"; "de"] → subset ∈ ["train"; "dev"; "test"] →
     read_text fs (data_file path subset lang ".bpe") = Some (texts (lang, subset))) →
  ∃ vocab fs',
    read_vocab vocab_text = Some vocab
    ∧ vectorize_files fs path vocab_path langs subsets = Some fs'
    ∧ load_datasets fs' path ["train"; "dev"; "test"] flip
      = Some ((λ subset,
                 let en := corpus_ids vocab (texts ("en", subset)) in
                 let de := corpus_ids vocab (texts ("de", subset)) in
                 if flip then zip de en else zip en de) <$> ["train"; "dev"; "test"]).
Proof.
  intros Hvocab Hlangs Hsubsets Htexts.
  destruct (read_vocab_total vocab_text) as (vocab & Hread & Hdef).
  set (jobs := lang ← langs; subset ← subsets; [(lang, subset)]).
  assert (∀ job, job ∈ jobs ↔ job.1 ∈ ["en"; "de"] ∧ job.2 ∈ ["train"; "dev"; "test"]) as Hjobs.
  { intros [lang subset]. unfold jobs. rewrite list_elem_of_bind. simpl. split.
    - intros (l & (s & Heq & Hs)%list_elem_of_bind & Hl).
      apply list_elem_of_singleton in Heq as [= -> ->].
      by rewrite <- Hlangs, <- Hsubsets.
    - intros [Hl Hs]. exists lang. rewrite Hlangs. split; [|done].
      apply list_elem_of_bind. exists subset. rewrite Hsubsets. split; [by left|done]. }
  destruct (vectorize_jobs_spec path vocab texts fs vocab jobs) as (fs' & vocab' & Hrun & Hwritten & _).
  - done.
  - done.
  - intros [lang subset] [Hl Hs]%Hjobs. by apply Htexts.
  - intros [l1 s1] [l2 s2] [Hl1 Hs1]%Hjobs [Hl2 Hs2]%Hjobs Heq. simpl in *.
    by destruct (data_file_inj path s1 l1 s2 l2) as [-> ->].
  - exists vocab, fs'. split_and!; [done| |].
    + unfold vectorize_files. rewrite Hvocab. simpl. rewrite Hread. simpl.
      fold jobs. by rewrite Hrun.
    + assert (∀ lang subset, lang ∈ ["en"; "de"] → subset ∈ ["train"; "dev"; "test"] →
                pickle_load fs' (data_file path subset lang ".vec")
                = Some (corpus_ids vocab (texts (lang, subset)))) as Hload.
      { intros lang subset Hl Hs. unfold pickle_load.
        pose proof (Hwritten (lang, subset) ltac:(by apply Hjobs)) as Hw.
        cbn [fst snd] in Hw. by rewrite Hw. }
      unfold load_datasets. cbn [mapM fmap list_fmap].
      rewrite !Hload by (repeat first [by left | right]).
      reflexivity.
Qed.

(** ** Concrete instances of the further properties *)

Lemma split_ds_sorted_witness :
  0 ≤ 1 < 2
  ∧ ∃ shard,
      shard_of [([1;2;3],[4;5]); ([1],[]); ([1;2],[3;4]); ([1],[2]); ([1;2],[3])] 2 1 = Some shard
      ∧ StronglySorted (λ a b, pair_len a ≤ pair_len b) shard.
Proof. split; [lia|]. apply split_ds_sorted. lia. Defined.

Lemma split_ds_balanced_witness :
  0 ≤ 0 < 2
  ∧ ∃ shard,
      shard_of [([1;2;3],[4;5]); ([1],[]); ([1;2],[3;4]); ([1],[2]); ([1;2],[3])] 2 0 = Some shard
      ∧ Z.of_nat (length shard) = (Z.of_nat 5 - 0 + 2 - 1) / 2.
Proof.
  split; [lia|].
  destruct (split_ds_balanced
              [([1;2;3],[4;5]); ([1],[]); ([1;2],[3;4]); ([1],[2]); ([1;2],[3])] 2 0)
    as (shard & Hshard & Hlen & _); [lia|].
  by exists shard.
Defined.

Lemma get_batches_all_fit_witness :
  batch_tokens [([1],[2]); ([3;4],[5]); ([6],[])] ≤ 10
  ∧ ∃ b g',
      Dataloader.get_batches (S := sample_reversed) [([1],[2]); ([3;4],[5]); ([6],[])] 10 tt
      = Some (replicate 3 b, g')
      ∧ b ≡ₚ [([1],[2]); ([3;4],[5]); ([6],[])].
Proof.
  assert (batch_tokens [([1],[2]); ([3;4],[5]); ([6],[])] ≤ 10) as Hfit by (by vm_compute).
  split; [done|]. by apply (get_batches_all_fit (S := sample_reversed)).
Defined.

Lemma pipeline_covers_witness :
  0 < 2 ∧ ([1;2],[3;4]) ∈ [([1;2;3],[4;5]); ([1],[]); ([1;2],[3;4])]
  ∧ ∃ rank shard out g',
      0 ≤ rank < 2
      ∧ shard_of [([1;2;3],[4;5]); ([1],[]); ([1;2],[3;4])] 2 rank = Some shard
      ∧ Dataloader.get_batches (S := sample_in_order) shard 4 tt = Some (out, g')
      ∧ ∃ b, b ∈ out ∧ ([1;2],[3;4]) ∈ b.
Proof.
  assert (([1;2],[3;4]) ∈ [([1;2;3],[4;5]); ([1],[]); ([1;2],[3;4])]) as Hin
    by (right; right; by left).
  split_and!; [lia|done|].
  apply (pipeline_covers (S := sample_in_order)); [lia|done].
Defined.

Lemma devectorize_missing_id_witness :
  devectorize [0; 1; 7] (Py.Dict [(0, SOS); (1, EOS); (2, UNK)] None) true = None.
Proof.
  apply (devectorize_missing_id [0; 1; 7] (Py.Dict [(0, SOS); (1, EOS); (2, UNK)] None) true 7).
  - reflexivity.
  - right. right. by left.
  - reflexivity.
Defined.

Lemma round_trip_unwrapped_witness :
  well_formed (write_vocab (build_vocab ["a b a"]))
  ∧ ∃ ids vocab',
      vectorize "a <EOS> zz" (numbered [SOS; EOS; UNK; "a"%string; "b"%string]) false
      = Some (ids, vocab')
      ∧ devectorize ids (reverse_mapping (numbered [SOS; EOS; UNK; "a"%string; "b"%string])) false
        = Some ("a <EOS> <UNK>"%string,
                reverse_mapping (numbered [SOS; EOS; UNK; "a"%string; "b"%string])).
Proof.
  assert (well_formed (write_vocab (build_vocab ["a b a"]))) as Hwf.
  { exists ["a"%string; "b"%string]. split; [by vm_compute|].
    apply (bool_decide_unpack _). by vm_compute. }
  split; [done|].
  apply (round_trip_unwrapped (write_vocab (build_vocab ["a b a"])) "a <EOS> zz"
           (numbered [SOS; EOS; UNK; "a"%string; "b"%string])
           (reverse_mapping (numbered [SOS; EOS; UNK; "a"%string; "b"%string])));
    [done|by vm_compute|].
  intros w id. apply reverse_mapping_inverts.
Defined.

Lemma merge_bpe_join_witness :
  Forall (λ piece, "@"%char ∉ chars piece) ["un"%string; "break"%string; "able"%string]
  ∧ merge_bpe "un@@ break@@ able" = "unbreakable"%string.
Proof.
  assert (Forall (λ piece, "@"%char ∉ chars piece)
            ["un"%string; "break"%string; "able"%string]) as Hpieces.
  { repeat constructor; absent_char. }
  split; [done|].
  exact (merge_bpe_join ["un"%string; "break"%string; "able"%string] Hpieces).
Defined.

Lemma collate_numels_witness :
  [([5;6],[7]); ([8],[9;10;11])] ≠ ([] : list PairSample)
  ∧ Forall (λ pair : PairSample, Forall int64 pair.1 ∧ Forall int64 pair.2)
           [([5;6],[7]); ([8],[9;10;11])]
  ∧ Forall (λ pair : PairSample, Forall (λ x, x ≠ -1) pair.2) [([5;6],[7]); ([8],[9;10;11])]
  ∧ ∃ source_ids target_ids source_mask causal_mask,
      Collator.collate_fn [([5;6],[7]); ([8],[9;10;11])]
      = Some (source_ids, target_ids, source_mask, causal_mask)
      ∧ count_true (Collator.ne target_ids (-1)) = 4.
Proof.
  assert (Forall (λ pair : PairSample, Forall int64 pair.1 ∧ Forall int64 pair.2)
            [([5;6],[7]); ([8],[9;10;11])]) as Hids.
  { repeat constructor; unfold int64; lia. }
  assert (Forall (λ pair : PairSample, Forall (λ x, x ≠ -1) pair.2)
            [([5;6],[7]); ([8],[9;10;11])]) as Hvalid.
  { repeat constructor; lia. }
  split_and!; [done..|].
  by destruct (collate_numels [([5;6],[7]); ([8],[9;10;11])]) as (s & t & m & c & Hc & Hn);
    [done|done|done|exists s, t, m, c].
Defined.

Lemma vectorize_then_load_witness :
  let fs : files := λ name,
    if decide (name = "vocab"%string)
    then Some (Text (write_vocab (build_vocab ["a b a"])))
    else Some (Text "b zz a") in
  ∃ vocab fs',
    read_vocab (write_vocab (build_vocab ["a b a"])) = Some vocab
    ∧ vectorize_files fs "data" "vocab" ["de"; "en"] ["dev"; "test"; "train"] = Some fs'
    ∧ load_datasets fs' "data" ["train"; "dev"; "test"] false
      = Some [ [([0; 4; 2; 3; 1], [0; 4; 2; 3; 1])];
               [([0; 4; 2; 3; 1], [0; 4; 2; 3; 1])];
               [([0; 4; 2; 3; 1], [0; 4; 2; 3; 1])] ].
Proof.
  intros fs.
  destruct (vectorize_then_load fs "data" "vocab" (write_vocab (build_vocab ["a b a"]))
              ["de"; "en"] ["dev"; "test"; "train"] (λ _, "b zz a"%string) false)
    as (vocab & fs' & Hread & Hfiles & Hload).
  - reflexivity.
  - apply Permutation_swap.
  - etrans; [apply perm_skip, Permutation_swap|]. apply Permutation_swap.
  - intros lang subset Hl Hs.
    repeat (apply elem_of_cons in Hl as [->|Hl]); [..|by apply elem_of_nil in Hl];
      (repeat (apply elem_of_cons in Hs as [->|Hs]); [..|by apply elem_of_nil in Hs]);
      reflexivity.
  - exists vocab, fs'. split_and!; [done..|].
    rewrite Hload. assert (vocab = numbered [SOS; EOS; UNK; "a"%string; "b"%string]) as ->.
    { assert (read_vocab (write_vocab (build_vocab ["a b a"]))
              = Some (numbered [SOS; EOS; UNK; "a"%string; "b"%string])) as Hv by (by vm_compute).
      congruence. }
    by vm_compute.
Defined.
